(** * kasper: the topic processor's coordinator (topic_processor.go)

    A shallow embedding of [TopicProcessor]: construction, the run loop,
    [processConsumerMessage], producer acknowledgement routing, the error
    drainer and shutdown.

    Channels are modelled by what they deliver: the [Successes()] channel by
    the list of values it will hand out, in order; each execution of the
    two-way [select] of the submission loop by a boolean telling whether the
    send on [Input()] fired.  Every call the coordinator makes on a
    collaborator is recorded in a trace of [action]s, so that ordering
    properties can be stated on the trace. *)

From stdpp Require Import base gmap strings list.
From Stdlib Require Import ZArith Lia.

#[local] Set Warnings "-clear-no-such-hyp".

Local Open Scope Z_scope.

(** ** Data *)

(** Go's conversion [int32(x)] of an [int]: two's complement wrap-around. *)
Definition int32 (z : Z) : Z := (z + 2 ^ 31) `mod` 2 ^ 32 - 2 ^ 31.

(** [sarama.ConsumerMessage]: the fields the coordinator reads
    ([Partition] is an [int32]). *)
Record ConsumerMessage := mkConsumerMessage {
  cm_Topic : string;
  cm_Partition : Z;
  cm_Offset : Z;
}.

(** [IncomingMessage] ([Partition] is an [int], converted with [int32] when
    it indexes [partitionProcessors]). *)
Record IncomingMessage := mkIncomingMessage {
  im_Topic : string;
  im_Partition : Z;
  im_Offset : Z;
}.

(** The dynamic content of [ProducerMessage.Metadata], an [interface{}]:
    either a [*IncomingMessage] (possibly a nil pointer of that type) or a
    value of any other dynamic type (the nil interface included). *)
Inductive Metadata :=
| MetaIncoming (ptr : option IncomingMessage)
| MetaOther.

(** [sarama.ProducerMessage]. *)
Record ProducerMessage := mkProducerMessage {
  pm_Topic : string;
  pm_Partition : Z;
  pm_Metadata : Metadata;
}.

(** A value received from [tp.producer.Successes()]: the pointer (nil when
    the channel is closed) and the [more] flag. *)
Definition ack : Type := option ProducerMessage * bool.

(** ** The partition processor interface *)

Module partitionProcessor.
(** Modelled from the spec: [partitionProcessor] and its methods are
    declared in another file of the package, which is not among the
    sources; the coordinator only calls them.  By the spec (4.2) each method
    reads or updates the state of its processor, so the methods are taken
    as operations on an abstract per-partition state [PP], and a call
    through a nil pointer is a nil dereference.  The two predicates are
    read-only ("must be pure; the coordinator may call it repeatedly"). *)
Class Ops (PP : Type) := {
  isReadyForMessage : PP → ConsumerMessage → bool;
  process : PP → ConsumerMessage → PP * list ProducerMessage * bool;
  onProcessCompleted : PP → PP;
  isReadyToCommit : PP → bool;
  commit : PP → PP;
  onProducerAck : PP → ProducerMessage → PP;
  onMarkOffsetsTick : PP → PP;
  onShutdown : PP → PP;
}.
End partitionProcessor.

(** ** Observable actions *)

(** One constructor per call or channel operation of the coordinator.  The
    partition argument is the key of the processor in
    [tp.partitionProcessors]; calls that return a value record it. *)
Inductive action :=
| RecvConsumer (m : ConsumerMessage)
| RecvSuccess (msg : option ProducerMessage) (more : bool)
| RecvTick
| RecvShutdown
| SendInput (pm : ProducerMessage)
| CallIsReadyForMessage (p : Z) (m : ConsumerMessage) (r : bool)
| CallProcess (p : Z) (m : ConsumerMessage)
    (producerMessages : list ProducerMessage) (mustCommit : bool)
| CallOnProcessCompleted (p : Z)
| CallIsReadyToCommit (p : Z) (r : bool)
| CallMarkOffsetsHook
| CallCommit (p : Z)
| CallOnProducerAck (p : Z) (pm : ProducerMessage)
| CallOnMarkOffsetsTick (p : Z)
| CloseSyncChan
| TickerStop
| CallOnShutdown (p : Z)
| ProducerClose
| ClientClose
| CloseShutdownChan
| WaitGroupWait.

(** How a piece of code ends: it returns; it is blocked on a channel for
    which the modelled environment has nothing more to deliver; it panics
    (nil dereference, failed type assertion); or it ends the process with
    [log.Fatal]. *)
Inductive outcome := Returned | Blocked | Panicked | Fatal.

Section Coordinator.

Context {PP : Type} {ops : partitionProcessor.Ops PP}.

(** Result of a handler that performs no channel operation itself. *)
Record eff := Eff {
  e_status : outcome;
  e_procs : gmap Z PP;
  e_trace : list action;
}.

(** Result of code that reads channels: what is left of the environment is
    returned too. *)
Record exec := Exec {
  x_status : outcome;
  x_procs : gmap Z PP;
  x_successes : list ack;
  x_ready : list bool;
  x_trace : list action;
}.

(** Prefix a result with the actions performed before it. *)
Definition after (t : list action) (e : exec) : exec :=
  Exec (x_status e) (x_procs e) (x_successes e) (x_ready e) (t ++ x_trace e).

(** [tp.onProducerAck] (lines 254-261).  A method call through a nil
    [*partitionProcessor] (key absent from the map) panics: every method of
    the partition processor reads the receiver's state. *)
Definition onProducerAck (pps : gmap Z PP)
    (producerMessage : option ProducerMessage) (more : bool) : eff :=
  if negb more then Eff Returned pps []
  else
    match producerMessage with
    | None => Eff Panicked pps []
    | Some pm =>
      match pm_Metadata pm with
      | MetaIncoming (Some incomingMessage) =>
        let k := int32 (im_Partition incomingMessage) in
        match pps !! k with
        | Some pp =>
          Eff Returned (<[k := partitionProcessor.onProducerAck pp pm]> pps)
              [CallOnProducerAck k pm]
        | None => Eff Panicked pps []
        end
      | MetaIncoming None => Eff Panicked pps []
      | MetaOther => Eff Panicked pps []
      end
    end.

(** Continue with [k] when [e] returned, in the state [e] left. *)
Definition andThen (e : exec)
    (k : gmap Z PP → list ack → list bool → exec) : exec :=
  match x_status e with
  | Returned => after (x_trace e) (k (x_procs e) (x_successes e) (x_ready e))
  | _ => e
  end.

(** The same for a handler, which leaves the channels as they are. *)
Definition afterAck (a : eff) (successes : list ack) (ready : list bool)
    (k : gmap Z PP → exec) : exec :=
  after (e_trace a)
    match e_status a with
    | Returned => k (e_procs a)
    | o => Exec o (e_procs a) successes ready []
    end.

(** The commit wait of [processConsumerMessage] (lines 160-168): [k] is the
    key of [pp].  Each round that finds the processor not ready receives one
    value from [Successes()] and routes it. *)
Fixpoint commitWait (k : Z) (pps : gmap Z PP) (successes : list ack)
    (ready : list bool) {struct successes} : exec :=
  match pps !! k with
  | None => Exec Panicked pps successes ready []
  | Some pp =>
    if partitionProcessor.isReadyToCommit pp then
      Exec Returned (<[k := partitionProcessor.commit pp]> pps) successes ready
        [CallIsReadyToCommit k true; CallMarkOffsetsHook; CallCommit k]
    else
      match successes with
      | [] => Exec Blocked pps [] ready [CallIsReadyToCommit k false]
      | (msg, more) :: successes' =>
        after [CallIsReadyToCommit k false; RecvSuccess msg more]
          (afterAck (onProducerAck pps msg more) successes' ready
             (λ pps', commitWait k pps' successes' ready))
      end
  end.

(** The submission loop (lines 150-157).  Each execution of the [select]
    consumes one entry of [ready]: [true] when the send on [Input()] fired,
    [false] when the receive from [Successes()] did. *)
Fixpoint submit (pps : gmap Z PP) (producerMessages : list ProducerMessage)
    (successes : list ack) (ready : list bool) {struct ready} : exec :=
  match producerMessages with
  | [] => Exec Returned pps successes ready []
  | pm :: rest =>
    match ready with
    | [] => Exec Blocked pps successes [] []
    | true :: ready' =>
      after [SendInput pm] (submit pps rest successes ready')
    | false :: ready' =>
      match successes with
      | [] => Exec Blocked pps [] ready' []
      | (msg, more) :: successes' =>
        after [RecvSuccess msg more]
          (afterAck (onProducerAck pps msg more) successes' ready'
             (λ pps', submit pps' producerMessages successes' ready'))
      end
    end
  end.

(** The body run once [pp.isReadyForMessage] holds (lines 149-170). *)
Definition processReady (k : Z) (consumerMessage : ConsumerMessage) (pp : PP)
    (pps : gmap Z PP) (successes : list ack) (ready : list bool) : exec :=
  let '(pp1, producerMessages, mustCommit) :=
    partitionProcessor.process pp consumerMessage in
  after [CallProcess k consumerMessage producerMessages mustCommit]
    (andThen (submit (<[k := pp1]> pps) producerMessages successes ready)
       (λ pps2 successes2 ready2,
          match pps2 !! k with
          | None => Exec Panicked pps2 successes2 ready2 []
          | Some pp2 =>
            let pps3 :=
              <[k := partitionProcessor.onProcessCompleted pp2]> pps2 in
            after [CallOnProcessCompleted k]
              (if mustCommit then commitWait k pps3 successes2 ready2
               else Exec Returned pps3 successes2 ready2 [])
          end)).

(** [tp.processConsumerMessage] (lines 145-178).  [tickerChan] is the commit
    ticker's channel, given as the ticks it would deliver. *)
Fixpoint processConsumerMessage (pps : gmap Z PP)
    (consumerMessage : ConsumerMessage) (tickerChan : list Z)
    (successes : list ack) (ready : list bool) {struct successes} : exec :=
  let k := cm_Partition consumerMessage in
  match pps !! k with
  | None => Exec Panicked pps successes ready []
  | Some pp =>
    if partitionProcessor.isReadyForMessage pp consumerMessage then
      after [CallIsReadyForMessage k consumerMessage true]
        (processReady k consumerMessage pp pps successes ready)
    else
      match successes with
      | [] =>
        Exec Blocked pps [] ready [CallIsReadyForMessage k consumerMessage false]
      | (msg, more) :: successes' =>
        after [CallIsReadyForMessage k consumerMessage false;
               RecvSuccess msg more]
          (afterAck (onProducerAck pps msg more) successes' ready
             (λ pps',
                processConsumerMessage pps' consumerMessage tickerChan
                  successes' ready))
      end
  end.

(** [tp.onMarkOffsetsTick] (lines 222-227).  Go leaves the iteration order
    of a map unspecified; the order of [map_to_list] stands for it. *)
Definition onMarkOffsetsTick (pps : gmap Z PP) : eff :=
  Eff Returned (partitionProcessor.onMarkOffsetsTick <$> pps)
      (CallMarkOffsetsHook
         :: map (λ kv, CallOnMarkOffsetsTick kv.1) (map_to_list pps)).

(** [tp.onShutdown] (lines 180-195): [ticker] tells whether the ticker
    pointer is non-nil, the two [option]s are the errors returned by
    [tp.producer.Close()] and [tp.client.Close()]. *)
Definition onShutdown (pps : gmap Z PP) (ticker : bool)
    (producerCloseErr clientCloseErr : option string) : eff :=
  let pps' := partitionProcessor.onShutdown <$> pps in
  let t := (if ticker then [TickerStop] else [])
             ++ map (λ kv, CallOnShutdown kv.1) (map_to_list pps)
             ++ [ProducerClose] in
  match producerCloseErr with
  | Some _ => Eff Fatal pps' t
  | None =>
    match clientCloseErr with
    | Some _ => Eff Fatal pps' (t ++ [ClientClose])
    | None => Eff Returned pps' (t ++ [ClientClose])
    end
  end.

(** Which case a [select] of [runLoop] took. *)
Inductive selected :=
| SelConsumer (consumerMessage : ConsumerMessage)
| SelSuccess
| SelTick
| SelShutdown.

(** What [runLoop] reads from the configuration and the two [Close]
    results. *)
Record loopEnv := mkLoopEnv {
  markOffsetsAutomatically : bool;
  tickerChan : list Z;
  producerCloseErr : option string;
  clientCloseErr : option string;
}.

(** The [for]/[select] of [tp.runLoop] (lines 129-142), one entry of
    [sched] per iteration.  Without automatic marking the ticker channel is
    a fresh channel nobody writes to, so its case never fires; the ticker
    pointer is then nil. *)
Fixpoint runLoop (env : loopEnv) (pps : gmap Z PP) (sched : list selected)
    (successes : list ack) (ready : list bool) {struct sched} : exec :=
  match sched with
  | [] => Exec Blocked pps successes ready []
  | SelConsumer consumerMessage :: sched' =>
    after [RecvConsumer consumerMessage]
      (andThen
         (processConsumerMessage pps consumerMessage (tickerChan env)
            successes ready)
         (λ pps' successes' ready', runLoop env pps' sched' successes' ready'))
  | SelSuccess :: sched' =>
    match successes with
    | [] => Exec Blocked pps [] ready []
    | (msg, more) :: successes' =>
      after [RecvSuccess msg more]
        (afterAck (onProducerAck pps msg more) successes' ready
           (λ pps', runLoop env pps' sched' successes' ready))
    end
  | SelTick :: sched' =>
    if markOffsetsAutomatically env then
      after [RecvTick]
        (afterAck (onMarkOffsetsTick pps) successes ready
           (λ pps', runLoop env pps' sched' successes ready))
    else Exec Blocked pps successes ready []
  | SelShutdown :: _ =>
    after [RecvShutdown; CloseSyncChan]
      (afterAck
         (onShutdown pps (markOffsetsAutomatically env)
            (producerCloseErr env) (clientCloseErr env))
         successes ready
         (λ pps', Exec Returned pps' successes ready []))
  end.

End Coordinator.

(** ** The error drainer and [Shutdown] *)

(** [sarama.ProducerError]. *)
Record ProducerError := mkProducerError {
  pe_Msg : ProducerMessage;
  pe_Err : string;
}.

(** [tp.onProducerError] (lines 218-220): [log.Fatal], whatever the error.
    The second component lists what the handler does besides: nothing. *)
Definition onProducerError (error : ProducerError) : outcome * list action :=
  (Fatal, []).

(** The goroutine of lines 122-127, [for err := range tp.producer.Errors()],
    over the errors the channel delivers before it is closed.  Returns how
    the task ends and the errors it handed to [onProducerError]. *)
Fixpoint errorDrainer (errors : list ProducerError)
    : outcome * list ProducerError :=
  match errors with
  | [] => (Returned, [])
  | err :: errors' =>
    match (onProducerError err).1 with
    | Returned =>
      let '(o, handled) := errorDrainer errors' in (o, err :: handled)
    | o => (o, [err])
    end
  end.

(** [waitGroup.Wait()] returns once the counter of registered, unfinished
    tasks is zero. *)
Definition waitGroupWait (counter : nat) : outcome :=
  match counter with
  | O => Returned
  | S _ => Blocked
  end.

(** [tp.Shutdown] (lines 104-107); [counter] is the wait group's counter
    once every task that is going to finish has finished. *)
Definition Shutdown (counter : nat) : outcome * list action :=
  (waitGroupWait counter, [CloseShutdownChan; WaitGroupWait]).

(** ** Construction *)

(** [Serde] and [TopicSerde]; [V] stands for Go's [interface{}] values. *)
Record Serde (V : Type) := mkSerde {
  Serialize : V → list Byte.byte;
  Deserialize : list Byte.byte → V;
}.

Record TopicSerde (V : Type) := mkTopicSerde {
  KeySerde : Serde V;
  ValueSerde : Serde V;
}.

(** The fields of [TopicProcessorConfig] that [NewTopicProcessor] reads. *)
Record TopicProcessorConfig (V : Type) := mkConfig {
  ContainerCount : Z;
  InputTopics : list string;
  BrokerList : list string;
  TopicSerdes : gmap string (TopicSerde V);
  PartitionToContainerID : gmap Z Z;
}.

Arguments ContainerCount {V} _.
Arguments InputTopics {V} _.
Arguments BrokerList {V} _.
Arguments TopicSerdes {V} _.
Arguments PartitionToContainerID {V} _.

(** The [log.Fatal] calls of construction. *)
Inductive fatal :=
| FatalContainerID (count containerID : Z)
| FatalNoSerde (topic : string)
| FatalNoPartitionMapping (partition : Z)
| FatalClient (err : string)
| FatalOffsetManager (err : string)
| FatalProducer (err : string).

Inductive result (A : Type) :=
| Ok (a : A)
| LogFatal (f : fatal).

Arguments Ok {A} _.
Arguments LogFatal {A} _.

(** What the broker-facing constructors return: the error of
    [sarama.NewClient], of [sarama.NewOffsetManagerFromClient] and of
    [sarama.NewAsyncProducer] ([None] is a nil error). *)
Record brokers := mkBrokers {
  newClientErr : option string;
  newOffsetManagerErr : option string;
  newAsyncProducerErr : option string;
}.

Section Construction.

Context {V MP PP : Type}.

(** [config.partitionsForContainer] and [newPartitionProcessor] are declared
    in other files of the package; [makeProcessor] is the caller's factory,
    given by what its successive calls return. *)
Variable partitionsForContainer : TopicProcessorConfig V → Z → list Z.
Variable newPartitionProcessor : MP → Z → PP.
Variable makeProcessor : nat → MP.

(** The fields of [TopicProcessor] that are data of this package; the
    client, producer, offset manager, shutdown channel and wait group are
    handles of the environment. *)
Record TopicProcessor := mkTopicProcessor {
  tp_config : TopicProcessorConfig V;
  tp_containerID : Z;
  tp_partitionProcessors : gmap Z PP;
  tp_inputTopics : list string;
  tp_partitions : list Z;
}.

(** Lines 49-54: the first input topic without a [Serde], if any. *)
Fixpoint missingSerde (serdes : gmap string (TopicSerde V))
    (inputTopics : list string) : option string :=
  match inputTopics with
  | [] => None
  | topic :: rest =>
    match serdes !! topic with
    | Some _ => missingSerde serdes rest
    | None => Some topic
    end
  end.

(** Lines 62-67: the first assigned partition without a mapping, if any. *)
Fixpoint missingPartition (mapping : gmap Z Z) (partitions : list Z)
    : option Z :=
  match partitions with
  | [] => None
  | partition :: rest =>
    match mapping !! partition with
    | Some _ => missingPartition mapping rest
    | None => Some partition
    end
  end.

(** Lines 87-90: [i] counts the calls of [makeProcessor] made so far. *)
Fixpoint makePartitionProcessors (i : nat) (partitions : list Z)
    (partitionProcessors : gmap Z PP) : gmap Z PP :=
  match partitions with
  | [] => partitionProcessors
  | partition :: rest =>
    makePartitionProcessors (S i) rest
      (<[int32 partition :=
           newPartitionProcessor (makeProcessor i) partition]>
         partitionProcessors)
  end.

(** [NewTopicProcessor] (lines 43-92). *)
Definition NewTopicProcessor (config : TopicProcessorConfig V)
    (containerID : Z) (env : brokers) : result TopicProcessor :=
  if (containerID <? 0) || (containerID >=? ContainerCount config) then
    LogFatal (FatalContainerID (ContainerCount config) containerID)
  else
    let inputTopics := InputTopics config in
    match missingSerde (TopicSerdes config) inputTopics with
    | Some topic => LogFatal (FatalNoSerde topic)
    | None =>
      match newClientErr env with
      | Some err => LogFatal (FatalClient err)
      | None =>
        let partitions := partitionsForContainer config containerID in
        match missingPartition (PartitionToContainerID config) partitions with
        | Some partition => LogFatal (FatalNoPartitionMapping partition)
        | None =>
          match newOffsetManagerErr env with
          | Some err => LogFatal (FatalOffsetManager err)
          | None =>
            match newAsyncProducerErr env with
            | Some err => LogFatal (FatalProducer err)
            | None =>
              Ok (mkTopicProcessor config containerID
                    (makePartitionProcessors 0 partitions ∅)
                    inputTopics partitions)
            end
          end
        end
      end
    end.

End Construction.

(** ** A partition processor after the specification *)

(** Modelled from the spec: the state of [partitionProcessor], which is not
    among the source files (spec 3, PartitionState): the cap on in-flight
    groups, the in-flight groups oldest first (input offset and outstanding
    acknowledgements), the commit watermark and the last marked offset. *)
Record PartitionState := mkPartitionState {
  ps_cap : nat;
  ps_groups : list (Z * nat);
  ps_watermark : Z;
  ps_marked : Z;
}.

(** Modelled from the spec: the watermark advance of the absent
    [partitionProcessor] (spec 4.2, onProducerAck): leading ack-complete
    groups leave the queue and move the watermark to their offset. *)
Fixpoint advance (groups : list (Z * nat)) (watermark : Z)
    : list (Z * nat) * Z :=
  match groups with
  | (offset, O) :: rest => advance rest offset
  | _ => (groups, watermark)
  end.

(** Modelled from the spec: the counter update of the absent
    [partitionProcessor.onProducerAck] (spec 4.2): one acknowledgement less
    is outstanding for the group of the given input offset. *)
Fixpoint ackGroup (offset : Z) (groups : list (Z * nat)) : list (Z * nat) :=
  match groups with
  | [] => []
  | (o, n) :: rest =>
    if o =? offset then (o, Nat.pred n) :: rest
    else (o, n) :: ackGroup offset rest
  end.

(** Modelled from the spec: the operations of the absent
    [partitionProcessor] (spec 4.2), over a user processor [user] that maps
    a message to the output (topic, partition) pairs it sends and to whether
    it called [Commit()].  Every output carries the back-reference to the
    message being processed. *)
Definition specProcessor (user : ConsumerMessage → list (string * Z) * bool)
    : partitionProcessor.Ops PartitionState :=
  {| partitionProcessor.isReadyForMessage s _ :=
       (length (ps_groups s) <? ps_cap s)%nat;
     partitionProcessor.process s m :=
       let '(outs, mustCommit) := user m in
       let im := mkIncomingMessage (cm_Topic m) (cm_Partition m) (cm_Offset m) in
       let pms :=
         map (λ o : string * Z,
                mkProducerMessage o.1 o.2 (MetaIncoming (Some im))) outs in
       let '(groups, watermark) :=
         advance (ps_groups s ++ [(cm_Offset m, length pms)])
           (ps_watermark s) in
       (mkPartitionState (ps_cap s) groups watermark (ps_marked s),
        pms, mustCommit);
     partitionProcessor.onProcessCompleted s := s;
     partitionProcessor.isReadyToCommit s :=
       match ps_groups s with [] => true | _ => false end;
     partitionProcessor.commit s :=
       mkPartitionState (ps_cap s) (ps_groups s) (ps_watermark s)
         (ps_watermark s);
     partitionProcessor.onProducerAck s pm :=
       match pm_Metadata pm with
       | MetaIncoming (Some im) =>
         let '(groups, watermark) :=
           advance (ackGroup (im_Offset im) (ps_groups s)) (ps_watermark s) in
         mkPartitionState (ps_cap s) groups watermark (ps_marked s)
       | _ => s
       end;
     partitionProcessor.onMarkOffsetsTick s :=
       mkPartitionState (ps_cap s) (ps_groups s) (ps_watermark s)
         (ps_watermark s);
     partitionProcessor.onShutdown s := s |}.

(** A user processor that sends [n] messages to the topic "out", on the
    partition of its input, and asks for a commit at offset [commitAt]. *)
Definition fanout (n : nat) (commitAt : Z) (m : ConsumerMessage)
    : list (string * Z) * bool :=
  (replicate n ("out"%string, cm_Partition m), cm_Offset m =? commitAt).

(** Sample inputs: a message on partition 0 at offset 5, the output it
    gives rise to, and a container that owns partition 0 with room for two
    in-flight groups. *)
Definition msg5 : ConsumerMessage := mkConsumerMessage "in" 0 5.

Definition out5 : ProducerMessage :=
  mkProducerMessage "out" 0 (MetaIncoming (Some (mkIncomingMessage "in" 0 5))).

Definition idle : PartitionState := mkPartitionState 2 [] 0 0.

Definition onePartition : gmap Z PartitionState := {[ 0 := idle ]}.

(** A processor at capacity: one group at offset 4 with one acknowledgement
    outstanding, cap 1. *)
Definition full : PartitionState := mkPartitionState 1 [(4, 1%nat)] 3 3.

Definition atCapacity : gmap Z PartitionState := {[ 0 := full ]}.

Definition unassigned : gmap Z PartitionState := ∅.

Definition out4 : ProducerMessage :=
  mkProducerMessage "out" 0 (MetaIncoming (Some (mkIncomingMessage "in" 0 4))).

(** The sample processor: two outputs per message, commit requested at
    offset 5; and the two acknowledgements of the outputs of [msg5]. *)
Definition sampleOps : partitionProcessor.Ops PartitionState :=
  specProcessor (fanout 2 5).

Definition acks5 : list ack := [(Some out5, true); (Some out5, true)].

(** A processor of outputs without commit request. *)
Definition plainOps : partitionProcessor.Ops PartitionState :=
  specProcessor (fanout 2 9).

(** An acknowledgement whose [Metadata] is not an incoming message. *)
Definition stray : ProducerMessage := mkProducerMessage "out" 0 MetaOther.

(** Sample configurations: two containers, the topic "in" with a serde,
    partitions 0 and 1 mapped; [sampleAssignment] gives container 0 the
    partitions 0 and 2 and every other container the partition 1. *)
Definition unitSerde : TopicSerde unit :=
  mkTopicSerde unit (mkSerde unit (λ _, []) (λ _, ()))
    (mkSerde unit (λ _, []) (λ _, ())).

Definition sampleConfig : TopicProcessorConfig unit :=
  mkConfig unit 2 ["in"%string] ["broker:9092"%string]
    {[ "in"%string := unitSerde ]} {[ 0 := 0; 1 := 1 ]}.

Definition twoTopics : TopicProcessorConfig unit :=
  mkConfig unit 2 ["in"%string; "other"%string] ["broker:9092"%string]
    {[ "in"%string := unitSerde ]} {[ 0 := 0; 1 := 1 ]}.

Definition sampleAssignment (config : TopicProcessorConfig unit)
    (containerID : Z) : list Z :=
  if containerID =? 0 then [0; 2] else [1].

Definition reachable : brokers := mkBrokers None None None.

(** An environment of [runLoop] with automatic marking in which the
    producer fails to close. *)
Definition closeFails : loopEnv :=
  mkLoopEnv true [] (Some "producer: failed to flush"%string) None.

Definition closesCleanly : loopEnv := mkLoopEnv true [] None None.

(** More sample inputs: a container with the partitions 0 and 1, an
    acknowledgement for partition 1, a closed success channel, a schedule of
    one message followed by the shutdown signal, an environment without
    automatic marking, brokers that cannot be reached, and a configuration
    whose container 0 is assigned the partitions 1 and 1 + 2^32. *)
Definition twoPartitions : gmap Z PartitionState :=
  {[ 0 := idle; 1 := full ]}.

Definition out1 : ProducerMessage :=
  mkProducerMessage "out" 1 (MetaIncoming (Some (mkIncomingMessage "in" 1 4))).

Definition closed : list ack := [(None, false); (None, false)].

Definition oneThenShutdown : list selected :=
  [SelConsumer msg5; SelShutdown; SelConsumer msg5].

Definition manualMarking : loopEnv := mkLoopEnv false [] None None.

Definition unreachable : brokers :=
  mkBrokers (Some "no broker available"%string) None None.

Definition wrappedConfig : TopicProcessorConfig unit :=
  mkConfig unit 1 ["in"%string] ["broker:9092"%string]
    {[ "in"%string := unitSerde ]} {[ 1 := 0; 1 + 2 ^ 32 := 0 ]}.

Definition wrappedAssignment (config : TopicProcessorConfig unit)
    (containerID : Z) : list Z :=
  [1; 1 + 2 ^ 32].


(** ** The fan-in layer *)




(** [tp.consumerMessageChannels] (lines 229-236), over the channels
    [pp.consumerMessageChannels()] returns for each processor; the
    processors are visited in the order of [map_to_list]. *)
Definition consumerMessageChannels {PP C : Type} (channelsOf : PP → list C)
    (pps : gmap Z PP) : list C :=
  foldl (λ chans kv, chans ++ channelsOf kv.2) [] (map_to_list pps).

(** The number of tasks [tp.getConsumerMessagesChan] registers on the wait
    group (line 201): one per consumer channel. *)
Definition forwarderCount {PP C : Type} (channelsOf : PP → list C)
    (pps : gmap Z PP) : nat :=
  length (consumerMessageChannels channelsOf pps).

(** ** Projections of a trace *)

(** The values received from [Successes()], in the order of the trace. *)
Fixpoint recvs (t : list action) : list ack :=
  match t with
  | [] => []
  | RecvSuccess msg more :: t' => (msg, more) :: recvs t'
  | _ :: t' => recvs t'
  end.

(** The calls of [pp.onProducerAck]: the key of the processor and the
    message, in the order of the trace. *)
Fixpoint routes (t : list action) : list (Z * ProducerMessage) :=
  match t with
  | [] => []
  | CallOnProducerAck p pm :: t' => (p, pm) :: routes t'
  | _ :: t' => routes t'
  end.

(** Where [tp.onProducerAck] looks for the processor of a received value:
    nowhere when [more] is false or the back-reference cannot be read. *)
Definition routeOf (a : ack) : option (Z * ProducerMessage) :=
  match a with
  | (Some pm, true) =>
    match pm_Metadata pm with
    | MetaIncoming (Some im) => Some (int32 (im_Partition im), pm)
    | _ => None
    end
  | _ => None
  end.

(** The consumer messages passed to [pp.process], those received from the
    merged channel, and those a schedule of [runLoop] delivers. *)
Fixpoint processes (t : list action) : list ConsumerMessage :=
  match t with
  | [] => []
  | CallProcess _ m _ _ :: t' => m :: processes t'
  | _ :: t' => processes t'
  end.

Fixpoint received (t : list action) : list ConsumerMessage :=
  match t with
  | [] => []
  | RecvConsumer m :: t' => m :: received t'
  | _ :: t' => received t'
  end.

Fixpoint scheduled (sched : list selected) : list ConsumerMessage :=
  match sched with
  | [] => []
  | SelConsumer m :: sched' => m :: scheduled sched'
  | SelShutdown :: _ => []
  | _ :: sched' => scheduled sched'
  end.

(** The actions of the shutdown sequence after the signal. *)
Definition shutdown_action (a : action) : bool :=
  match a with
  | CloseSyncChan | TickerStop | CallOnShutdown _ | ProducerClose
  | ClientClose => true
  | _ => false
  end.

Definition is_shutdown (a : action) : bool :=
  match a with RecvShutdown => true | _ => false end.

(** What a run [e] started on the processors [pps] with [successes] to be
    delivered keeps: the values it received and those left make up
    [successes]; the calls of [pp.onProducerAck] follow the received values,
    all of them unless the run panicked; the keys of the map are the same;
    and a processor that is neither one of [own] nor addressed by a routed
    acknowledgement is unchanged. *)
Definition tracks {PP : Type} (own : gset Z) (pps : gmap Z PP)
    (successes : list ack) (e : exec) : Prop :=
  recvs (x_trace e) ++ x_successes e = successes
  ∧ routes (x_trace e) `prefix_of` omap routeOf (recvs (x_trace e))
  ∧ (x_status e ≠ Panicked →
     routes (x_trace e) = omap routeOf (recvs (x_trace e)))
  ∧ dom (x_procs e) = dom pps
  ∧ (∀ k, k ∉ own → k ∉ (routes (x_trace e)).*1 →
          x_procs e !! k = pps !! k).

(** ** Predicates on acknowledgements and traces *)

(** An acknowledgement that [tp.onProducerAck] can route when the keys of
    [tp.partitionProcessors] are [ks]: either [more] is false, or the
    message is non-nil, its [Metadata] is a non-nil [*IncomingMessage] and
    the partition of that message, converted to [int32], is a key. *)
Definition routable (ks : gset Z) (a : ack) : bool :=
  match a with
  | (_, false) => true
  | (None, true) => false
  | (Some pm, true) =>
    match pm_Metadata pm with
    | MetaIncoming (Some im) => bool_decide (int32 (im_Partition im) ∈ ks)
    | _ => false
    end
  end.

(** The calls made while routing one received value: none when [more] is
    false, one [pp.onProducerAck] on the processor found through the
    back-reference otherwise. *)
Inductive routed : option ProducerMessage → bool → list action → Prop :=
| routed_closed msg : routed msg false []
| routed_ack pm im :
    pm_Metadata pm = MetaIncoming (Some im) →
    routed (Some pm) true [CallOnProducerAck (int32 (im_Partition im)) pm].

(** Traces of the commit wait for the processor with key [k], with the way
    the wait ends: rounds of a failed test followed by one received and
    routed value, then either the successful test, the hook and the commit,
    or a receive that finds nothing, or a routing that panics. *)
Inductive commitPhase (k : Z) : outcome → list action → Prop :=
| cp_commit :
    commitPhase k Returned
      [CallIsReadyToCommit k true; CallMarkOffsetsHook; CallCommit k]
| cp_blocked : commitPhase k Blocked [CallIsReadyToCommit k false]
| cp_panicked msg :
    commitPhase k Panicked [CallIsReadyToCommit k false; RecvSuccess msg true]
| cp_round o msg more ta t :
    routed msg more ta → commitPhase k o t →
    commitPhase k o
      (CallIsReadyToCommit k false :: RecvSuccess msg more :: ta ++ t).

(** Traces of the submission loop for the pending messages: the head is
    sent, or one value is received and routed and the same pending list is
    tried again. *)
Inductive submitPhase : list ProducerMessage → outcome → list action → Prop :=
| sp_done : submitPhase [] Returned []
| sp_blocked pm rest : submitPhase (pm :: rest) Blocked []
| sp_panicked pm rest msg :
    submitPhase (pm :: rest) Panicked [RecvSuccess msg true]
| sp_send pm rest o t :
    submitPhase rest o t → submitPhase (pm :: rest) o (SendInput pm :: t)
| sp_ack pm rest msg more ta o t :
    routed msg more ta → submitPhase (pm :: rest) o t →
    submitPhase (pm :: rest) o (RecvSuccess msg more :: ta ++ t).

(** Traces of what follows [pp.process] when it returned [outs] and
    [mustCommit]: the submission of [outs]; once it is over,
    [pp.onProcessCompleted]; and then the commit wait when [mustCommit] is
    set, nothing otherwise. *)
Inductive processed (k : Z) (outs : list ProducerMessage) (mustCommit : bool)
    : outcome → list action → Prop :=
| pr_submitting o s :
    submitPhase outs o s → o ≠ Returned → processed k outs mustCommit o s
| pr_completed s :
    mustCommit = false → submitPhase outs Returned s →
    processed k outs mustCommit Returned (s ++ [CallOnProcessCompleted k])
| pr_commit s o c :
    mustCommit = true → submitPhase outs Returned s → commitPhase k o c →
    processed k outs mustCommit o (s ++ CallOnProcessCompleted k :: c).

(** Rounds of the wait for [pp.isReadyForMessage]: the failed test, one
    value received from [Successes()], its routing. *)
Inductive waited (k : Z) (m : ConsumerMessage) : list action → Prop :=
| waited_nil : waited k m []
| waited_round msg more ta w :
    routed msg more ta → waited k m w →
    waited k m
      (CallIsReadyForMessage k m false :: RecvSuccess msg more :: ta ++ w).

(** Traces of [processConsumerMessage] for message [m] on the processor
    with key [k]. *)
Inductive handling (k : Z) (m : ConsumerMessage)
    : outcome → list action → Prop :=
| h_nil : handling k m Panicked []
| h_blocked : handling k m Blocked [CallIsReadyForMessage k m false]
| h_panicked msg :
    handling k m Panicked
      [CallIsReadyForMessage k m false; RecvSuccess msg true]
| h_round o msg more ta t :
    routed msg more ta → handling k m o t →
    handling k m o
      (CallIsReadyForMessage k m false :: RecvSuccess msg more :: ta ++ t)
| h_process outs mustCommit o t :
    processed k outs mustCommit o t →
    handling k m o
      (CallIsReadyForMessage k m true :: CallProcess k m outs mustCommit :: t).

(** The messages written to [Input()], in the order of the trace. *)
Fixpoint sends (t : list action) : list ProducerMessage :=
  match t with
  | [] => []
  | SendInput pm :: t' => pm :: sends t'
  | _ :: t' => sends t'
  end.

Definition is_commit (a : action) : bool :=
  match a with CallCommit _ => true | _ => false end.

Definition is_process (a : action) : bool :=
  match a with CallProcess _ _ _ _ => true | _ => false end.

Definition is_completed (a : action) : bool :=
  match a with CallOnProcessCompleted _ => true | _ => false end.

(** The actions of the commit timer: the receive from the ticker channel
    and the calls [tp.onMarkOffsetsTick] makes on the processors. *)
Definition is_tick (a : action) : bool :=
  match a with
  | RecvTick | CallOnMarkOffsetsTick _ => true
  | _ => false
  end.

(** The receives of [runLoop]'s own [select] other than from
    [Successes()]. *)
Definition is_loop_receive (a : action) : bool :=
  match a with
  | RecvConsumer _ | RecvTick | RecvShutdown => true
  | _ => false
  end.

(** The actions that occur in the routing of an acknowledgement, in the
    submission loop, and in the commit wait. *)
Definition ack_action (a : action) : bool :=
  match a with CallOnProducerAck _ _ => true | _ => false end.

Definition submit_action (a : action) : bool :=
  match a with
  | SendInput _ | RecvSuccess _ _ | CallOnProducerAck _ _ => true
  | _ => false
  end.

Definition commit_action (a : action) : bool :=
  match a with
  | RecvSuccess _ _ | CallOnProducerAck _ _ | CallIsReadyToCommit _ _
  | CallMarkOffsetsHook | CallCommit _ => true
  | _ => false
  end.

Definition is_ready_to_commit (a : action) : bool :=
  match a with CallIsReadyToCommit _ true => true | _ => false end.

Definition is_send (a : action) : bool :=
  match a with SendInput _ => true | _ => false end.

(** The three steps that end a successful commit wait. *)
Definition commit_step (a : action) : bool :=
  match a with
  | CallIsReadyToCommit _ true | CallMarkOffsetsHook | CallCommit _ => true
  | _ => false
  end.

(** The actions that occur after [pp.process], and in all of
    [processConsumerMessage]. *)
Definition processed_action (a : action) : bool :=
  match a with
  | CallOnProcessCompleted _ => true
  | _ => submit_action a || commit_action a
  end.

Definition handling_action (a : action) : bool :=
  match a with
  | CallIsReadyForMessage _ _ _ | CallProcess _ _ _ _ => true
  | _ => processed_action a
  end.

(** Traces of [runLoop], one block per iteration of its [select]: a
    consumer message and its handling, a received value and its routing, a
    tick and the marking it triggers, or the shutdown signal and what
    follows it. *)
Inductive iterations : list action → Prop :=
| its_end : iterations []
| its_consumer m o t rest :
    handling (cm_Partition m) m o t → iterations rest →
    iterations (RecvConsumer m :: t ++ rest)
| its_success msg more t rest :
    Forall (λ a, ack_action a = true) t → iterations rest →
    iterations (RecvSuccess msg more :: t ++ rest)
| its_tick ks rest :
    iterations rest →
    iterations (RecvTick :: CallMarkOffsetsHook
                  :: map CallOnMarkOffsetsTick ks ++ rest)
| its_shutdown t :
    Forall (λ a, is_tick a = false) t → iterations (RecvShutdown :: t).




(** ** Properties *)

Section Properties.

Context {PP : Type} {ops : partitionProcessor.Ops PP}.

Implicit Types (pps : gmap Z PP) (successes : list ack) (ready : list bool).

Lemma onProducerAck_dom pps msg more :
  dom (e_procs (onProducerAck pps msg more)) = dom pps.
Proof.
  unfold onProducerAck.
  destruct more; simpl; [|done].
  destruct msg as [pm|]; [|done].
  destruct (pm_Metadata pm) as [[im|]|]; try done.
  destruct (pps !! int32 (im_Partition im)) as [pp|] eqn:Hk; simpl; [|done].
  rewrite dom_insert_L.
  apply elem_of_dom_2 in Hk. set_solver.
Qed.

Lemma onProducerAck_returned pps msg more :
  routable (dom pps) (msg, more) = true →
  e_status (onProducerAck pps msg more) = Returned.
Proof.
  unfold onProducerAck, routable.
  destruct more; simpl; [|done].
  destruct msg as [pm|]; [|done].
  destruct (pm_Metadata pm) as [[im|]|]; try done.
  intros Hin%bool_decide_eq_true_1%elem_of_dom.
  destruct Hin as [pp ->]. done.
Qed.

Lemma onProducerAck_panicked pps msg :
  routable (dom pps) (msg, true) = false →
  e_status (onProducerAck pps msg true) = Panicked.
Proof.
  unfold onProducerAck, routable. simpl.
  destruct msg as [pm|]; [|done].
  destruct (pm_Metadata pm) as [[im|]|]; try done.
  intros Hin%bool_decide_eq_false_1.
  destruct (pps !! int32 (im_Partition im)) as [pp|] eqn:Hk; [|done].
  destruct Hin. by apply elem_of_dom_2 in Hk.
Qed.

(** What [commitWait] preserves: the keys of the map and, for any property
    of acknowledgements, that the values still to be delivered have it; with
    routable acknowledgements it does not panic. *)
Lemma commitWait_safe k pps successes ready :
  k ∈ dom pps →
  Forall (λ a, routable (dom pps) a = true) successes →
  let e := commitWait k pps successes ready in
  x_status e ≠ Panicked ∧ dom (x_procs e) = dom pps
  ∧ Forall (λ a, routable (dom pps) a = true) (x_successes e).
Proof.
  revert pps. induction successes as [|[msg more] successes IH];
    intros pps Hk Hall; simpl.
  - apply elem_of_dom in Hk as [pp Hpp]. rewrite Hpp.
    destruct (partitionProcessor.isReadyToCommit pp); simpl.
    + split_and!; [done| |done].
      rewrite dom_insert_L. apply elem_of_dom_2 in Hpp. set_solver.
    + done.
  - pose proof Hk as Hk'. apply elem_of_dom in Hk' as [pp Hpp]. rewrite Hpp.
    destruct (partitionProcessor.isReadyToCommit pp); simpl.
    + split_and!; [done| |done].
      rewrite dom_insert_L. apply elem_of_dom_2 in Hpp. set_solver.
    + apply Forall_cons in Hall as [Hr Hall].
      rewrite (onProducerAck_returned _ _ _ Hr).
      pose proof (onProducerAck_dom pps msg more) as Hd.
      specialize (IH (e_procs (onProducerAck pps msg more))).
      rewrite Hd in IH. by apply IH.
Qed.

Lemma submit_safe pps pms successes ready :
  Forall (λ a, routable (dom pps) a = true) successes →
  let e := submit pps pms successes ready in
  x_status e ≠ Panicked ∧ dom (x_procs e) = dom pps
  ∧ Forall (λ a, routable (dom pps) a = true) (x_successes e).
Proof.
  revert pps pms successes.
  induction ready as [|b ready IH]; intros pps pms successes Hall.
  - destruct pms; simpl; done.
  - destruct pms as [|pm rest]; [done|].
    destruct b; simpl.
    + by apply IH.
    + destruct successes as [|[msg more] successes]; simpl; [done|].
      apply Forall_cons in Hall as [Hr Hall].
      rewrite (onProducerAck_returned _ _ _ Hr).
      pose proof (onProducerAck_dom pps msg more) as Hd.
      specialize (IH (e_procs (onProducerAck pps msg more))).
      rewrite Hd in IH. by apply IH.
Qed.

Lemma processReady_safe k m pp pps successes ready :
  pps !! k = Some pp →
  Forall (λ a, routable (dom pps) a = true) successes →
  x_status (processReady k m pp pps successes ready) ≠ Panicked.
Proof.
  intros Hpp Hall. unfold processReady.
  destruct (partitionProcessor.process pp m) as [[pp1 pms] mustCommit].
  assert (dom (<[k:=pp1]> pps) = dom pps) as Hd.
  { rewrite dom_insert_L. apply elem_of_dom_2 in Hpp. set_solver. }
  rewrite <- Hd in Hall.
  destruct (submit_safe (<[k:=pp1]> pps) pms successes ready Hall)
    as (Hs & Hd2 & Hall2).
  unfold andThen.
  destruct (x_status (submit (<[k:=pp1]> pps) pms successes ready)) eqn:Hst;
    simpl; rewrite ?Hst; try done.
  assert (k ∈ dom (x_procs (submit (<[k:=pp1]> pps) pms successes ready)))
    as Hk2.
  { rewrite Hd2, Hd. by apply elem_of_dom_2 in Hpp. }
  pose proof Hk2 as Hk3. apply elem_of_dom in Hk3 as [pp2 Hpp2].
  rewrite Hpp2. simpl.
  destruct mustCommit; simpl; [|done].
  apply commitWait_safe.
  - rewrite dom_insert_L. set_solver.
  - rewrite dom_insert_L.
    replace ({[k]} ∪ dom (x_procs (submit (<[k:=pp1]> pps) pms successes ready)))
      with (dom (<[k:=pp1]> pps)) by set_solver.
    done.
Qed.

Lemma processConsumerMessage_safe pps m tickerChan successes ready :
  cm_Partition m ∈ dom pps →
  Forall (λ a, routable (dom pps) a = true) successes →
  x_status (processConsumerMessage pps m tickerChan successes ready)
    ≠ Panicked.
Proof.
  revert pps. induction successes as [|[msg more] successes IH];
    intros pps Hk Hall; simpl;
    pose proof Hk as Hk'; apply elem_of_dom in Hk' as [pp Hpp]; rewrite Hpp;
    destruct (partitionProcessor.isReadyForMessage pp m); simpl;
    try (by apply processReady_safe); [done|].
  apply Forall_cons in Hall as [Hr Hall].
  rewrite (onProducerAck_returned _ _ _ Hr).
  pose proof (onProducerAck_dom pps msg more) as Hd.
  apply IH; by rewrite Hd.
Qed.

Lemma onProducerAck_cases pps msg more :
  let a := onProducerAck pps msg more in
  (e_status a = Returned ∧ routed msg more (e_trace a))
  ∨ (e_status a = Panicked ∧ more = true ∧ e_trace a = []).
Proof.
  unfold onProducerAck.
  destruct more; simpl; [|left; split; [done|constructor]].
  destruct msg as [pm|]; [|by right].
  destruct (pm_Metadata pm) as [[im|]|] eqn:Hmeta; try by right.
  destruct (pps !! int32 (im_Partition im)); [|by right].
  left. split; [done|]. by constructor.
Qed.

Lemma commitWait_dom k pps successes ready :
  dom (x_procs (commitWait k pps successes ready)) = dom pps.
Proof.
  revert pps. induction successes as [|[msg more] successes IH];
    intros pps; simpl;
    (destruct (pps !! k) as [pp|] eqn:Hpp; [|done]);
    (destruct (partitionProcessor.isReadyToCommit pp); simpl;
       [rewrite dom_insert_L; apply elem_of_dom_2 in Hpp; set_solver|]);
    [done|].
  destruct (e_status (onProducerAck pps msg more)); simpl;
    rewrite ?IH; apply onProducerAck_dom.
Qed.

Lemma submit_dom pps pms successes ready :
  dom (x_procs (submit pps pms successes ready)) = dom pps.
Proof.
  revert pps pms successes.
  induction ready as [|b ready IH]; intros pps pms successes;
    (destruct pms as [|pm rest]; [done|]); [done|].
  destruct b; simpl; [apply IH|].
  destruct successes as [|[msg more] successes]; simpl; [done|].
  destruct (e_status (onProducerAck pps msg more)); simpl;
    rewrite ?IH; apply onProducerAck_dom.
Qed.

Lemma commitWait_trace k pps successes ready :
  k ∈ dom pps →
  let e := commitWait k pps successes ready in
  commitPhase k (x_status e) (x_trace e).
Proof.
  revert pps. induction successes as [|[msg more] successes IH];
    intros pps Hk; simpl;
    pose proof Hk as Hk'; apply elem_of_dom in Hk' as [pp Hpp]; rewrite Hpp;
    (destruct (partitionProcessor.isReadyToCommit pp); simpl;
       [constructor|]); [constructor|].
  destruct (onProducerAck_cases pps msg more) as [[Hst Hr]|(Hst & -> & Ht)];
    rewrite Hst; simpl.
  - apply cp_round; [done|]. apply IH. by rewrite onProducerAck_dom.
  - rewrite Ht. constructor.
Qed.

Lemma submit_trace pps pms successes ready :
  let e := submit pps pms successes ready in
  submitPhase pms (x_status e) (x_trace e).
Proof.
  revert pps pms successes.
  induction ready as [|b ready IH]; intros pps pms successes;
    (destruct pms as [|pm rest]; [constructor|]); [constructor|].
  destruct b; simpl; [apply sp_send, IH|].
  destruct successes as [|[msg more] successes]; simpl; [constructor|].
  destruct (onProducerAck_cases pps msg more) as [[Hst Hr]|(Hst & -> & Ht)];
    rewrite Hst; simpl.
  - apply sp_ack; [done|]. apply IH.
  - rewrite Ht. constructor.
Qed.

Lemma commitWait_returned k pps successes ready :
  let e := commitWait k pps successes ready in
  x_status e = Returned →
  ∃ pp, partitionProcessor.isReadyToCommit pp = true
    ∧ x_procs e !! k = Some (partitionProcessor.commit pp).
Proof.
  revert pps. induction successes as [|[msg more] successes IH];
    intros pps; simpl;
    (destruct (pps !! k) as [pp|] eqn:Hpp; [|done]);
    (destruct (partitionProcessor.isReadyToCommit pp) eqn:Hready; simpl;
       [intros _; exists pp; by rewrite lookup_insert_eq|]); [done|].
  destruct (e_status (onProducerAck pps msg more)); simpl; try done.
  apply IH.
Qed.

(** The run from [pp.process] on: the trace starts with the call, recorded
    with what it returned, and goes on as [processed] says; a run that
    returns with [mustCommit] set leaves the processor committed from a
    state in which it was ready to commit. *)
Lemma processReady_processed k m pp pps successes ready pp1 outs mc :
  pps !! k = Some pp →
  partitionProcessor.process pp m = (pp1, outs, mc) →
  let e := processReady k m pp pps successes ready in
  ∃ t, x_trace e = CallProcess k m outs mc :: t
    ∧ processed k outs mc (x_status e) t
    ∧ (x_status e = Returned → mc = true →
       ∃ pp', partitionProcessor.isReadyToCommit pp' = true
         ∧ x_procs e !! k = Some (partitionProcessor.commit pp'))
    ∧ (x_status (submit (<[k:=pp1]> pps) outs successes ready) = Returned →
       CallOnProcessCompleted k ∈ t).
Proof.
  intros Hpp Hproc. unfold processReady. rewrite Hproc.
  pose proof (submit_trace (<[k:=pp1]> pps) outs successes ready) as Hs.
  pose proof (submit_dom (<[k:=pp1]> pps) outs successes ready) as Hd.
  simpl in Hs. unfold andThen.
  destruct (x_status (submit (<[k:=pp1]> pps) outs successes ready)) eqn:Hst;
    simpl; rewrite ?Hst;
    try (eexists; split_and!; [done|by apply pr_submitting|done..]).
  assert (k ∈ dom (x_procs (submit (<[k:=pp1]> pps) outs successes ready)))
    as [pp2 Hpp2]%elem_of_dom.
  { rewrite Hd, dom_insert_L. set_solver. }
  rewrite Hpp2. simpl.
  destruct mc; simpl.
  - eexists; split_and!; [done| | |].
    + apply pr_commit; [done..|].
      apply commitWait_trace. rewrite dom_insert_L. set_solver.
    + intros Hret _. by apply commitWait_returned.
    + intros _. apply elem_of_app. right. by left.
  - eexists; split_and!; [done|by apply pr_completed|done|].
    intros _. apply elem_of_app. right. by left.
Qed.

Lemma processReady_trace k m pp pps successes ready :
  pps !! k = Some pp →
  let e := processReady k m pp pps successes ready in
  handling k m (x_status e) (CallIsReadyForMessage k m true :: x_trace e).
Proof.
  intros Hpp.
  destruct (partitionProcessor.process pp m) as [[pp1 outs] mc] eqn:Hproc.
  destruct (processReady_processed k m pp pps successes ready _ _ _ Hpp Hproc)
    as (t & Ht & Hp & _ & _).
  simpl. rewrite Ht. by apply h_process.
Qed.

Lemma processConsumerMessage_trace pps m tickerChan successes ready :
  let e := processConsumerMessage pps m tickerChan successes ready in
  handling (cm_Partition m) m (x_status e) (x_trace e).
Proof.
  revert pps. induction successes as [|[msg more] successes IH];
    intros pps; simpl;
    (destruct (pps !! cm_Partition m) as [pp|] eqn:Hpp; [|constructor]);
    (destruct (partitionProcessor.isReadyForMessage pp m); simpl;
       [by apply processReady_trace|]); [constructor|].
  destruct (onProducerAck_cases pps msg more) as [[Hst Hr]|(Hst & -> & Ht)];
    rewrite Hst; simpl.
  - apply h_round; [done|]. apply IH.
  - rewrite Ht. constructor.
Qed.

(** *** Occurrences in a trace *)

Lemma split_at_first (P : action → bool) pre rest t1 x t2 :
  Forall (λ a, P a = false) pre → P x = true →
  t1 ++ x :: t2 = pre ++ rest →
  ∃ t1', t1 = pre ++ t1' ∧ rest = t1' ++ x :: t2.
Proof.
  intros Hpre Hx. revert t1.
  induction Hpre as [|a pre Ha Hpre IH]; intros t1 Heq; simpl in *.
  - by exists t1.
  - destruct t1 as [|b t1]; simpl in Heq.
    + injection Heq as -> _. congruence.
    + injection Heq as -> Heq.
      destruct (IH _ Heq) as (t1' & -> & ->). by exists t1'.
Qed.

Lemma no_occurrence (P : action → bool) t t1 x t2 :
  Forall (λ a, P a = false) t → P x = true → t ≠ t1 ++ x :: t2.
Proof.
  intros Hall Hx ->. apply Forall_app in Hall as [_ Hall].
  apply Forall_cons in Hall as [Hx' _]. congruence.
Qed.

Lemma only_occurrence (P : action → bool) pre x rest t1 y t2 :
  Forall (λ a, P a = false) pre → Forall (λ a, P a = false) rest →
  P y = true →
  t1 ++ y :: t2 = pre ++ x :: rest →
  t1 = pre ∧ y = x ∧ t2 = rest.
Proof.
  intros Hpre Hrest Hy Heq.
  destruct (split_at_first P pre (x :: rest) t1 y t2 Hpre Hy Heq)
    as (t1' & -> & Heq').
  destruct t1' as [|b t1']; simpl in Heq'.
  - injection Heq' as -> ->. by rewrite app_nil_r.
  - injection Heq' as -> Heq'.
    by destruct (no_occurrence P _ t1' y t2 Hrest Hy).
Qed.

Lemma routed_alphabet msg more ta :
  routed msg more ta → Forall (λ a, ack_action a = true) ta.
Proof. destruct 1; repeat constructor. Qed.

Lemma submitPhase_alphabet pms o s :
  submitPhase pms o s → Forall (λ a, submit_action a = true) s.
Proof.
  induction 1; repeat first [done | apply Forall_cons_2 | apply Forall_app_2
                            | apply Forall_nil_2].
  eapply Forall_impl; [eapply routed_alphabet; eassumption|].
  intros []; simpl; congruence.
Qed.

Lemma commitPhase_alphabet k o c :
  commitPhase k o c → Forall (λ a, commit_action a = true) c.
Proof.
  induction 1; repeat first [done | apply Forall_cons_2 | apply Forall_app_2
                            | apply Forall_nil_2].
  eapply Forall_impl; [eapply routed_alphabet; eassumption|].
  intros []; simpl; congruence.
Qed.

Lemma processed_alphabet k outs mc o t :
  processed k outs mc o t → Forall (λ a, processed_action a = true) t.
Proof.
  destruct 1 as [o' s Hs Ho|s Hmc Hs|s o' c Hmc Hs Hc];
    repeat first [done | apply Forall_cons_2 | apply Forall_app_2
                 | apply Forall_nil_2];
    try (eapply Forall_impl; [eapply submitPhase_alphabet; eassumption|];
         intros []; simpl; congruence).
  eapply Forall_impl; [eapply commitPhase_alphabet; eassumption|].
  intros []; simpl; congruence.
Qed.

Lemma handling_alphabet k m o t :
  handling k m o t → Forall (λ a, handling_action a = true) t.
Proof.
  induction 1 as [| |msg|o msg more ta t Hr Hh IH|outs mc o t Hp];
    repeat first [done | apply Forall_cons_2 | apply Forall_app_2
                 | apply Forall_nil_2].
  - eapply Forall_impl; [eapply routed_alphabet; eassumption|].
    intros []; simpl; congruence.
  - eapply Forall_impl; [eapply processed_alphabet; eassumption|].
    intros []; simpl; congruence.
Qed.

(** Closes [Forall (λ a, P a = false) t] for a classifier [P] and a trace
    [t] assembled from explicit actions and pieces whose alphabet is
    known. *)
Ltac absent :=
  repeat first [ apply Forall_nil_2 | apply Forall_cons_2; [done|]
               | apply Forall_app_2 ];
  try done;
  try (eapply Forall_impl;
       [ first [ eapply routed_alphabet; eassumption
               | eapply submitPhase_alphabet; eassumption
               | eapply commitPhase_alphabet; eassumption
               | eapply processed_alphabet; eassumption
               | eapply handling_alphabet; eassumption
               | eassumption ]
       | intros []; simpl; congruence ]).

(** *** Where the commit is in a trace *)

(** A trace of the commit wait is free of commit steps, up to the three
    that end it when it returns. *)
Lemma commitPhase_steps k o c :
  commitPhase k o c →
  ∃ pre, Forall (λ a, commit_step a = false) pre
    ∧ (c = pre
       ∨ c = pre ++ [CallIsReadyToCommit k true; CallMarkOffsetsHook;
                     CallCommit k]).
Proof.
  induction 1 as [| |msg|o msg more ta t Hr Hc (pre & Hpre & IH)].
  - exists []. split; [constructor|]. by right.
  - eexists. split; [|by left]. absent.
  - eexists. split; [|by left]. absent.
  - exists (CallIsReadyToCommit k false :: RecvSuccess msg more :: ta ++ pre).
    split; [absent|].
    destruct IH as [->| ->]; [by left|right].
    simpl. by rewrite <- ?app_assoc.
Qed.

Lemma processed_steps k outs mc o t :
  processed k outs mc o t →
  ∃ pre, Forall (λ a, commit_step a = false) pre
    ∧ (t = pre
       ∨ t = pre ++ [CallIsReadyToCommit k true; CallMarkOffsetsHook;
                     CallCommit k]).
Proof.
  intros [o' s Hs Ho|s Hmc Hs|s o' c Hmc Hs Hc].
  - exists s. split; [absent|by left].
  - eexists. split; [|by left]. absent.
  - destruct (commitPhase_steps _ _ _ Hc) as (pre & Hpre & IH).
    exists (s ++ CallOnProcessCompleted k :: pre). split; [absent|].
    destruct IH as [->| ->]; [by left|right].
    simpl. by rewrite <- ?app_assoc.
Qed.

Lemma handling_steps k m o t :
  handling k m o t →
  ∃ pre, Forall (λ a, commit_step a = false) pre
    ∧ (t = pre
       ∨ t = pre ++ [CallIsReadyToCommit k true; CallMarkOffsetsHook;
                     CallCommit k]).
Proof.
  induction 1 as [| |msg|o msg more ta t Hr Hh (pre & Hpre & IH)
                 |outs mc o t Hp].
  - exists []. split; [constructor|by left].
  - eexists. split; [|by left]. absent.
  - eexists. split; [|by left]. absent.
  - exists (CallIsReadyForMessage k m false :: RecvSuccess msg more
              :: ta ++ pre).
    split; [absent|].
    destruct IH as [->| ->]; [by left|right].
    simpl. by rewrite <- ?app_assoc.
  - destruct (processed_steps _ _ _ _ _ Hp) as (pre & Hpre & IH).
    exists (CallIsReadyForMessage k m true :: CallProcess k m outs mc :: pre).
    split; [absent|].
    destruct IH as [->| ->]; [by left|by right].
Qed.

(** *** Where the call of [process] is in a trace *)

Lemma handling_process k m o t t0 p m' outs mc t1 :
  handling k m o t → t = t0 ++ CallProcess p m' outs mc :: t1 →
  p = k ∧ m' = m
  ∧ (∃ w, waited k m w ∧ t0 = w ++ [CallIsReadyForMessage k m true])
  ∧ processed k outs mc o t1.
Proof.
  intros Hh. revert t0.
  induction Hh as [| |msg|o msg more ta t Hr Hh IH|outs' mc' o t Hp];
    intros t0 Heq;
    try (by eapply (no_occurrence is_process) in Heq; [|absent|]).
  - symmetry in Heq.
    apply (split_at_first is_process
             (CallIsReadyForMessage k m false :: RecvSuccess msg more :: ta))
      in Heq as (t0' & -> & Heq); [|absent|done].
    destruct (IH _ Heq) as (-> & -> & (w & Hw & ->) & Hp).
    split_and!; [done..| |done].
    exists (CallIsReadyForMessage k m false :: RecvSuccess msg more
              :: ta ++ w).
    split; [by constructor|]. simpl. by rewrite <- ?app_assoc.
  - symmetry in Heq.
    apply (only_occurrence is_process [CallIsReadyForMessage k m true])
      in Heq as (-> & [= -> -> -> ->] & ->); [|absent..|done].
    split_and!; [done..| |done].
    exists []. split; [constructor|done].
Qed.

Lemma processed_after_completed k outs o t t1 p t2 :
  processed k outs true o t → t = t1 ++ CallOnProcessCompleted p :: t2 →
  p = k ∧ commitPhase k o t2.
Proof.
  intros [o' s Hs Ho|s Hmc Hs|s o' c Hmc Hs Hc] Heq; [|done|].
  - by eapply (no_occurrence is_completed) in Heq; [|absent|].
  - symmetry in Heq.
    by apply (only_occurrence is_completed s) in Heq
      as (-> & [= ->] & ->); [|absent..|done].
Qed.

Lemma processConsumerMessage_commits pps m tickerChan successes ready
    t0 p m' outs t1 :
  let e := processConsumerMessage pps m tickerChan successes ready in
  x_status e = Returned →
  x_trace e = t0 ++ CallProcess p m' outs true :: t1 →
  ∃ pp, partitionProcessor.isReadyToCommit pp = true
    ∧ x_procs e !! cm_Partition m = Some (partitionProcessor.commit pp).
Proof.
  revert pps t0. induction successes as [|[msg more] successes IH];
    intros pps t0; simpl;
    (destruct (pps !! cm_Partition m) as [pp|] eqn:Hpp; [|done]);
    destruct (partitionProcessor.isReadyForMessage pp m); simpl; try done.
  1,2: destruct (partitionProcessor.process pp m) as [[pp1 outs'] mc] eqn:Hproc;
    match goal with |- context [processReady _ _ _ _ ?s _] =>
      destruct (processReady_processed (cm_Partition m) m pp pps s ready
                  _ _ _ Hpp Hproc) as (t & Ht & Hp & Hc & _)
    end;
    rewrite Ht; intros Hret Heq; symmetry in Heq;
    apply (only_occurrence is_process
             [CallIsReadyForMessage (cm_Partition m) m true])
      in Heq as (-> & [= -> -> -> <-] & ->); [|absent..|done];
    by apply Hc.
  destruct (onProducerAck_cases pps msg more) as [[Hst Hr]|(Hst & -> & Ht)];
    rewrite Hst; simpl; [|done].
  intros Hret Heq. symmetry in Heq.
  apply (split_at_first is_process
           (CallIsReadyForMessage (cm_Partition m) m false
              :: RecvSuccess msg more
              :: e_trace (onProducerAck pps msg more)))
    in Heq as (t0' & -> & Heq); [|absent|done].
  by eapply IH.
Qed.

(** C1: in every run of [processConsumerMessage], a call of [pp.commit] is
    made on the message's own processor, ends the run, and comes
    immediately after the user's [MarkOffsetsHook], itself immediately after
    a call of [pp.isReadyToCommit] that returned true; a successful test is
    always followed by the hook and the commit.  When [pp.process] returned
    [mustCommit = true], what follows [pp.onProcessCompleted] is a commit
    wait: rounds of a failed test, one value received from [Successes()]
    and its routing.  A run that returns in that case leaves the processor
    committed from a state that was ready to commit. *)
Theorem commit_waits_for_ready pps m tickerChan successes ready :
  let e := processConsumerMessage pps m tickerChan successes ready in
  let k := cm_Partition m in
  (∀ t1 p t2, x_trace e = t1 ++ CallCommit p :: t2 →
     p = k ∧ t2 = []
     ∧ ∃ t0, t1 = t0 ++ [CallIsReadyToCommit k true; CallMarkOffsetsHook])
  ∧ (∀ t1 p t2, x_trace e = t1 ++ CallIsReadyToCommit p true :: t2 →
       p = k ∧ t2 = [CallMarkOffsetsHook; CallCommit k])
  ∧ (∀ t0 outs t1 t2,
       x_trace e = t0 ++ CallProcess k m outs true
                      :: t1 ++ CallOnProcessCompleted k :: t2 →
       commitPhase k (x_status e) t2)
  ∧ (∀ t0 outs t1,
       x_status e = Returned →
       x_trace e = t0 ++ CallProcess k m outs true :: t1 →
       ∃ pp, partitionProcessor.isReadyToCommit pp = true
         ∧ x_procs e !! k = Some (partitionProcessor.commit pp)).
Proof.
  intros e k.
  pose proof (processConsumerMessage_trace pps m tickerChan successes ready)
    as Hh.
  fold e k in Hh. simpl in Hh.
  destruct (handling_steps _ _ _ _ Hh) as (pre & Hpre & Hsteps).
  split_and!.
  - intros t1 p t2 Heq. destruct Hsteps as [Ht|Ht]; rewrite Ht in Heq.
    + by eapply (no_occurrence is_commit) in Heq; [|absent|].
    + symmetry in Heq.
      replace (pre ++ [CallIsReadyToCommit k true; CallMarkOffsetsHook;
                       CallCommit k])
        with ((pre ++ [CallIsReadyToCommit k true; CallMarkOffsetsHook])
                ++ [CallCommit k]) in Heq by (by rewrite <- app_assoc).
      apply (only_occurrence is_commit) in Heq
        as (-> & [= ->] & ->); [|absent..|done].
      split_and!; [done..|]. by exists pre.
  - intros t1 p t2 Heq. destruct Hsteps as [Ht|Ht]; rewrite Ht in Heq.
    + by eapply (no_occurrence is_ready_to_commit) in Heq; [|absent|].
    + symmetry in Heq.
      by apply (only_occurrence is_ready_to_commit) in Heq
        as (-> & [= ->] & ->); [|absent..|done].
  - intros t0 outs t1 t2 Heq.
    destruct (handling_process _ _ _ _ _ _ _ _ _ _ Hh Heq)
      as (_ & _ & _ & Hp).
    by destruct (processed_after_completed _ _ _ _ _ _ _ Hp eq_refl).
  - intros t0 outs t1 Hret Heq.
    by eapply processConsumerMessage_commits.
Qed.

(** C2: in every run of [processConsumerMessage], [pp.process] is called at
    most once, for the message and on its processor, immediately after a
    call of [pp.isReadyForMessage] that returned true; all that precedes is
    a sequence of rounds, each one a failed test, one value received from
    [Successes()] and its routing.  When the test fails the loop receives
    exactly one value, routes it with [onProducerAck] and runs the test
    again on the routed state; with nothing to receive it stays blocked
    without having called [process]. *)
Theorem process_waits_for_ready pps m tickerChan successes ready :
  let e := processConsumerMessage pps m tickerChan successes ready in
  let k := cm_Partition m in
  (∀ t0 p m' outs mc t1,
     x_trace e = t0 ++ CallProcess p m' outs mc :: t1 →
     p = k ∧ m' = m
     ∧ (∃ w, waited k m w ∧ t0 = w ++ [CallIsReadyForMessage k m true])
     ∧ Forall (λ a, is_process a = false) t1)
  ∧ (∀ pp msg more rest,
       pps !! k = Some pp →
       partitionProcessor.isReadyForMessage pp m = false →
       successes = (msg, more) :: rest →
       e_status (onProducerAck pps msg more) = Returned →
       e = after [CallIsReadyForMessage k m false; RecvSuccess msg more]
             (after (e_trace (onProducerAck pps msg more))
                (processConsumerMessage (e_procs (onProducerAck pps msg more))
                   m tickerChan rest ready)))
  ∧ (∀ pp,
       pps !! k = Some pp →
       partitionProcessor.isReadyForMessage pp m = false →
       successes = [] →
       e = Exec Blocked pps [] ready [CallIsReadyForMessage k m false]).
Proof.
  intros e k.
  pose proof (processConsumerMessage_trace pps m tickerChan successes ready)
    as Hh.
  fold e k in Hh. simpl in Hh.
  split_and!.
  - intros t0 p m' outs mc t1 Heq.
    destruct (handling_process _ _ _ _ _ _ _ _ _ _ Hh Heq)
      as (-> & -> & Hw & Hp).
    split_and!; [done..|]. absent.
  - intros pp msg more rest Hpp Hready -> Hst. subst e k. simpl.
    rewrite Hpp, Hready. unfold afterAck. by rewrite Hst.
  - intros pp Hpp Hready ->. subst e k. simpl.
    by rewrite Hpp, Hready.
Qed.

(** *** What is sent *)

Lemma sends_app t1 t2 : sends (t1 ++ t2) = sends t1 ++ sends t2.
Proof.
  induction t1 as [|a t1 IH]; [done|].
  destruct a; simpl; by rewrite ?IH.
Qed.

Lemma sends_absent t : Forall (λ a, is_send a = false) t → sends t = [].
Proof. induction 1 as [|[] t Ha Ht IH]; done. Qed.


(** The messages sent by the submission loop are a prefix of the pending
    ones, and all of them exactly when the loop returns. *)
Lemma submitPhase_sends outs o s :
  submitPhase outs o s →
  sends s `prefix_of` outs ∧ (o = Returned → sends s = outs).
Proof.
  induction 1 as [|pm rest|pm rest msg|pm rest o t Hs [IHp IHr]
                 |pm rest msg more ta o t Hr Hs [IHp IHr]]; simpl.
  - done.
  - split; [apply prefix_nil|done].
  - split; [apply prefix_nil|done].
  - split; [by apply prefix_cons|]. intros Ho. by rewrite IHr.
  - by rewrite sends_app, (sends_absent ta) by absent.
Qed.

Lemma processed_sends k outs mc o t :
  processed k outs mc o t →
  sends t `prefix_of` outs
  ∧ (CallOnProcessCompleted k ∈ t → sends t = outs)
  ∧ (o = Returned → sends t = outs).
Proof.
  intros [o' s Hs Ho|s Hmc Hs|s o' c Hmc Hs Hc];
    destruct (submitPhase_sends _ _ _ Hs) as [Hp Hr].
  - split_and!; [done| |done].
    intros (t1 & t2 & Heq)%list_elem_of_split.
    by eapply (no_occurrence is_completed) in Heq; [|absent|].
  - rewrite sends_app. simpl. rewrite app_nil_r, Hr by done. done.
  - rewrite sends_app. simpl. rewrite (sends_absent c) by absent.
    rewrite app_nil_r, Hr by done. done.
Qed.



(** *** How the submission follows its [select] *)









(** *** The run loop *)

Lemma onProducerAck_alphabet pps msg more :
  Forall (λ a, ack_action a = true) (e_trace (onProducerAck pps msg more)).
Proof.
  destruct (onProducerAck_cases pps msg more) as [[_ Hr]|(_ & _ & ->)];
    [by eapply routed_alphabet|constructor].
Qed.

Lemma runLoop_iterations env pps sched successes ready :
  iterations (x_trace (runLoop env pps sched successes ready)).
Proof.
  revert pps successes ready.
  induction sched as [|[m| | |] sched IH]; intros pps successes ready; simpl.
  - constructor.
  - pose proof (processConsumerMessage_trace pps m (tickerChan env)
                  successes ready) as Hh. simpl in Hh.
    unfold andThen.
    destruct (x_status (processConsumerMessage pps m (tickerChan env)
                          successes ready)) eqn:Hst; simpl;
      try (rewrite <- (app_nil_r (x_trace _));
           eapply its_consumer; [eassumption|constructor]).
    eapply its_consumer; [eassumption|apply IH].
  - destruct successes as [|[msg more] successes]; simpl; [constructor|].
    apply its_success; [apply onProducerAck_alphabet|].
    destruct (e_status (onProducerAck pps msg more)); simpl;
      [apply IH|constructor..].
  - destruct (markOffsetsAutomatically env); simpl; [|constructor].
    rewrite <- (map_map fst CallOnMarkOffsetsTick).
    apply its_tick, IH.
  - apply its_shutdown. unfold onShutdown.
    destruct (markOffsetsAutomatically env), (producerCloseErr env),
      (clientCloseErr env); simpl;
      repeat first [ apply Forall_nil_2 | apply Forall_cons_2; [done|]
                   | apply Forall_app_2 ];
      by apply Forall_map, Forall_true.
Qed.

(** C8: while a consumer message is handled no tick is acted upon: the
    trace of [processConsumerMessage] holds no receive from the ticker
    channel and no call of [onMarkOffsetsTick], nor a receive of a consumer
    message or of the shutdown signal; what it does is the same whatever
    ticker channel it is given.  In [runLoop] every trace is a sequence of
    whole iterations, and a tick is received, and the marking done, only in
    an iteration of its own. *)
Theorem ticks_wait_for_the_loop pps m successes ready :
  (∀ tickerChan,
     Forall (λ a, is_tick a = false ∧ is_loop_receive a = false)
       (x_trace (processConsumerMessage pps m tickerChan successes ready)))
  ∧ (∀ tickerChan1 tickerChan2,
       processConsumerMessage pps m tickerChan1 successes ready
       = processConsumerMessage pps m tickerChan2 successes ready)
  ∧ (∀ env sched,
       iterations (x_trace (runLoop env pps sched successes ready))).
Proof.
  split_and!.
  - intros tickerChan.
    pose proof (processConsumerMessage_trace pps m tickerChan successes ready)
      as Hh. simpl in Hh.
    eapply Forall_impl; [by eapply handling_alphabet|].
    by intros [].
  - intros tickerChan1 tickerChan2. revert pps.
    induction successes as [|[msg more] successes IH]; intros pps;
      simpl; [done|].
    destruct (pps !! cm_Partition m) as [pp|]; [|done].
    destruct (partitionProcessor.isReadyForMessage pp m); [done|].
    unfold afterAck.
    destruct (e_status (onProducerAck pps msg more)); [|done..].
    by rewrite IH.
  - intros env sched. apply runLoop_iterations.
Qed.

(** C9: [processConsumerMessage] and [onProducerAck] look the processor up
    without a presence check.  When the partition of the consumer message
    is a key of [partitionProcessors] and every value received from
    [Successes()] is routable (its [Metadata] is a non-nil
    [*IncomingMessage] whose partition is a key), neither panics; when the
    partition of the consumer message is not a key,
    [processConsumerMessage] panics before doing anything; an
    acknowledgement with [more = true] that is not routable makes
    [onProducerAck] panic, and with it a [processConsumerMessage] that
    receives it. *)
Theorem lookups_need_assigned_partitions pps m tickerChan successes ready :
  let e := processConsumerMessage pps m tickerChan successes ready in
  (cm_Partition m ∈ dom pps →
   Forall (λ a, routable (dom pps) a = true) successes →
   x_status e ≠ Panicked
   ∧ ∀ msg more, (msg, more) ∈ successes →
       e_status (onProducerAck pps msg more) = Returned)
  ∧ (pps !! cm_Partition m = None →
     x_status e = Panicked ∧ x_trace e = [])
  ∧ (∀ msg, routable (dom pps) (msg, true) = false →
       e_status (onProducerAck pps msg true) = Panicked)
  ∧ (∀ pp msg rest,
       pps !! cm_Partition m = Some pp →
       partitionProcessor.isReadyForMessage pp m = false →
       successes = (msg, true) :: rest →
       routable (dom pps) (msg, true) = false →
       x_status e = Panicked).
Proof.
  intros e. split_and!.
  - intros Hk Hall. split.
    + by apply processConsumerMessage_safe.
    + intros msg more Hin. apply onProducerAck_returned.
      by eapply (proj1 (Forall_forall _ _)) in Hall.
  - intros Hnone. subst e.
    destruct successes as [|[msg more] successes]; simpl; by rewrite Hnone.
  - apply onProducerAck_panicked.
  - intros pp msg rest Hpp Hready -> Hr. subst e. simpl.
    rewrite Hpp, Hready. unfold afterAck. simpl.
    by rewrite (onProducerAck_panicked _ _ Hr).
Qed.

(** C5: [onProducerError] ends the process with [log.Fatal] whatever the
    error, and does nothing else: nothing is sent again.  The drainer hands
    the first error it receives to [onProducerError] and the process ends
    there; it only returns when the error channel is closed without having
    delivered anything. *)
Theorem producer_errors_are_fatal :
  (∀ err, onProducerError err = (Fatal, []))
  ∧ (∀ err errs, errorDrainer (err :: errs) = (Fatal, [err]))
  ∧ (∀ errs, (errorDrainer errs).1 = Returned → errs = []).
Proof.
  split_and!; [done..|].
  by intros [|err errs].
Qed.

(** C7, as the code has it: [Shutdown] closes the shutdown channel and then
    waits on the wait group, returning only when its counter is zero.  On
    the shutdown signal the coordinator closes the fan-in synchroniser
    channel, stops the ticker when there is one, calls [onShutdown] once on
    every partition processor and closes the producer.  It then closes the
    log client exactly when the producer's [Close] returned no error, and
    returns exactly when neither [Close] returned an error; an error of
    either ends the process with [log.Fatal]. *)
Theorem shutdown_sequence env pps sched successes ready counter :
  let e := runLoop env pps (SelShutdown :: sched) successes ready in
  let ks := (map_to_list pps).*1 in
  Shutdown counter = (waitGroupWait counter, [CloseShutdownChan; WaitGroupWait])
  ∧ (waitGroupWait counter = Returned ↔ counter = 0%nat)
  ∧ x_trace e
    = [RecvShutdown; CloseSyncChan]
        ++ (if markOffsetsAutomatically env then [TickerStop] else [])
        ++ map CallOnShutdown ks
        ++ [ProducerClose]
        ++ match producerCloseErr env with
           | Some _ => []
           | None => [ClientClose]
           end
  ∧ NoDup ks ∧ (∀ k, k ∈ ks ↔ k ∈ dom pps)
  ∧ x_procs e = partitionProcessor.onShutdown <$> pps
  ∧ x_status e
    = match producerCloseErr env, clientCloseErr env with
      | None, None => Returned
      | _, _ => Fatal
      end.
Proof.
  intros e ks. split_and!.
  - done.
  - by destruct counter.
  - subst e ks. simpl. unfold onShutdown.
    rewrite <- (map_map fst CallOnShutdown).
    destruct (markOffsetsAutomatically env), (producerCloseErr env),
      (clientCloseErr env); simpl; by rewrite <- ?app_assoc, ?app_nil_r.
  - apply NoDup_fst_map_to_list.
  - intros k. subst ks. rewrite elem_of_dom, list_elem_of_fmap.
    split.
    + intros ([k' pp] & -> & Hin). apply elem_of_map_to_list in Hin. by eexists.
    + intros [pp Hpp]. exists (k, pp). split; [done|].
      by apply elem_of_map_to_list.
  - subst e. simpl. unfold onShutdown.
    by destruct (producerCloseErr env), (clientCloseErr env).
  - subst e. simpl. unfold onShutdown.
    by destruct (producerCloseErr env), (clientCloseErr env).
Qed.

(** C10: called with [more = false] (the success channel is closed),
    [onProducerAck] returns at once, whatever the message pointer is: it
    calls no partition processor and the processors are unchanged. *)
Theorem onProducerAck_closed_channel pps (msg : option ProducerMessage) :
  onProducerAck pps msg false = Eff Returned pps [].
Proof. reflexivity. Qed.

(** C4: an acknowledgement with [more = true] whose [Metadata] points to an
    incoming message is forwarded to the processor registered for that
    message's partition (as an [int32]) and to no other: every other entry
    of [partitionProcessors] is unchanged, and the only call made is
    [onProducerAck] on that processor. *)
Theorem onProducerAck_routes_by_back_reference pps pm im pp :
  pm_Metadata pm = MetaIncoming (Some im) →
  pps !! int32 (im_Partition im) = Some pp →
  let e := onProducerAck pps (Some pm) true in
  e_status e = Returned
  ∧ e_trace e = [CallOnProducerAck (int32 (im_Partition im)) pm]
  ∧ e_procs e !! int32 (im_Partition im)
      = Some (partitionProcessor.onProducerAck pp pm)
  ∧ (∀ k, k ≠ int32 (im_Partition im) → e_procs e !! k = pps !! k)
  ∧ (- 2 ^ 31 ≤ im_Partition im < 2 ^ 31 →
     int32 (im_Partition im) = im_Partition im).
Proof.
  intros Hmeta Hpp. unfold onProducerAck. simpl. rewrite Hmeta, Hpp. simpl.
  split_and!; try done.
  - by rewrite lookup_insert_eq.
  - intros k Hne. by rewrite lookup_insert_ne.
  - intros Hrange. unfold int32.
    rewrite Z.mod_small; lia.
Qed.

End Properties.

Section ConstructionProperties.

Context {V MP PP : Type}.
Variable partitionsForContainer : TopicProcessorConfig V → Z → list Z.
Variable newPartitionProcessor : MP → Z → PP.
Variable makeProcessor : nat → MP.

Lemma containerID_in_range (containerID count : Z) :
  0 ≤ containerID < count →
  (containerID <? 0) || (containerID >=? count) = false.
Proof.
  intros Hrange. rewrite Z.geb_leb. apply orb_false_iff.
  rewrite Z.ltb_ge, Z.leb_gt. lia.
Qed.

Lemma containerID_out_of_range (containerID count : Z) :
  containerID < 0 ∨ containerID >= count →
  (containerID <? 0) || (containerID >=? count) = true.
Proof.
  intros Hout. rewrite Z.geb_leb. apply orb_true_iff.
  rewrite Z.ltb_lt, Z.leb_le. lia.
Qed.

Lemma missingSerde_Some (serdes : gmap string (TopicSerde V)) topics topic :
  missingSerde serdes topics = Some topic →
  topic ∈ topics ∧ serdes !! topic = None.
Proof.
  induction topics as [|t topics IH]; simpl; [done|].
  destruct (serdes !! t) eqn:Ht.
  - intros [Hin Hnone]%IH. split; [by right|done].
  - intros [= <-]. split; [by left|done].
Qed.

Lemma missingSerde_None (serdes : gmap string (TopicSerde V)) topics :
  missingSerde serdes topics = None ↔
  ∀ topic, topic ∈ topics → is_Some (serdes !! topic).
Proof.
  induction topics as [|t topics IH]; simpl.
  - split; [|done]. intros _ topic Hin. by apply elem_of_nil in Hin.
  - destruct (serdes !! t) eqn:Ht.
    + rewrite IH. split.
      * intros Hall topic [->|Hin]%elem_of_cons; [by eexists|by apply Hall].
      * intros Hall topic Hin. apply Hall. by right.
    + split; [done|]. intros Hall.
      destruct (Hall t) as [x Hx]; [by left|congruence].
Qed.

Lemma missingPartition_Some (mapping : gmap Z Z) partitions p :
  missingPartition mapping partitions = Some p →
  p ∈ partitions ∧ mapping !! p = None.
Proof.
  induction partitions as [|q partitions IH]; simpl; [done|].
  destruct (mapping !! q) eqn:Hq.
  - intros [Hin Hnone]%IH. split; [by right|done].
  - intros [= <-]. split; [by left|done].
Qed.

Lemma missingPartition_None (mapping : gmap Z Z) partitions :
  missingPartition mapping partitions = None ↔
  ∀ p, p ∈ partitions → is_Some (mapping !! p).
Proof.
  induction partitions as [|q partitions IH]; simpl.
  - split; [|done]. intros _ p Hin. by apply elem_of_nil in Hin.
  - destruct (mapping !! q) eqn:Hq.
    + rewrite IH. split.
      * intros Hall p [->|Hin]%elem_of_cons; [by eexists|by apply Hall].
      * intros Hall p Hin. apply Hall. by right.
    + split; [done|]. intros Hall.
      destruct (Hall q) as [x Hx]; [by left|congruence].
Qed.

Lemma makePartitionProcessors_dom i partitions (acc : gmap Z PP) :
  dom (makePartitionProcessors newPartitionProcessor makeProcessor
         i partitions acc)
  = dom acc ∪ list_to_set (int32 <$> partitions).
Proof.
  revert i acc. induction partitions as [|p partitions IH]; intros i acc;
    simpl.
  - set_solver.
  - rewrite IH, dom_insert_L. set_solver.
Qed.

Lemma makePartitionProcessors_other i partitions (acc : gmap Z PP) k :
  k ∉ int32 <$> partitions →
  makePartitionProcessors newPartitionProcessor makeProcessor
    i partitions acc !! k = acc !! k.
Proof.
  revert i acc. induction partitions as [|p partitions IH]; intros i acc Hk;
    simpl; [done|].
  rewrite fmap_cons, not_elem_of_cons in Hk. destruct Hk as [Hne Hk].
  rewrite IH by done. by rewrite lookup_insert_ne.
Qed.

Lemma makePartitionProcessors_lookup i partitions (acc : gmap Z PP) j p :
  NoDup (int32 <$> partitions) →
  partitions !! j = Some p →
  makePartitionProcessors newPartitionProcessor makeProcessor
    i partitions acc !! int32 p
  = Some (newPartitionProcessor (makeProcessor (i + j)%nat) p).
Proof.
  revert i acc j. induction partitions as [|q partitions IH];
    intros i acc j Hnd Hj; [done|].
  rewrite fmap_cons in Hnd. apply NoDup_cons in Hnd as [Hq Hnd].
  destruct j as [|j]; simpl in *.
  - injection Hj as ->.
    rewrite makePartitionProcessors_other by done.
    by rewrite lookup_insert_eq, Nat.add_0_r.
  - rewrite (IH _ _ j) by done. do 3 f_equal. lia.
Qed.

(** C6, as the code has it: [NewTopicProcessor] ends with [log.Fatal] when
    the container id is outside [0, ContainerCount), when an input topic
    has no entry in [TopicSerdes], and when a partition assigned to the
    container has no entry in [PartitionToContainerID]; the error reported
    is the first one the code meets.  When none of these holds and the
    client, the offset manager and the producer are set up without error,
    it returns a [TopicProcessor] whose [partitionProcessors] has exactly
    the keys [int32(partition)] of the assigned partitions.  That is one
    processor per assigned partition, each built for its partition, when
    the assigned partitions are distinct as [int32] values; partitions that
    agree as [int32] share one entry. *)
Theorem NewTopicProcessor_setup (config : TopicProcessorConfig V)
    (containerID : Z) (env : brokers) :
  let r := NewTopicProcessor partitionsForContainer newPartitionProcessor
             makeProcessor config containerID env in
  let partitions := partitionsForContainer config containerID in
  (containerID < 0 ∨ containerID >= ContainerCount config →
   r = LogFatal (FatalContainerID (ContainerCount config) containerID))
  ∧ ((∃ topic, topic ∈ InputTopics config
               ∧ TopicSerdes config !! topic = None) →
     (∃ f, r = LogFatal f)
     ∧ (0 ≤ containerID < ContainerCount config →
        ∃ topic, r = LogFatal (FatalNoSerde topic)
                 ∧ topic ∈ InputTopics config
                 ∧ TopicSerdes config !! topic = None))
  ∧ ((∃ p, p ∈ partitions ∧ PartitionToContainerID config !! p = None) →
     (∃ f, r = LogFatal f)
     ∧ (0 ≤ containerID < ContainerCount config →
        (∀ topic, topic ∈ InputTopics config →
                  is_Some (TopicSerdes config !! topic)) →
        newClientErr env = None →
        ∃ p, r = LogFatal (FatalNoPartitionMapping p)
             ∧ p ∈ partitions ∧ PartitionToContainerID config !! p = None))
  ∧ (0 ≤ containerID < ContainerCount config →
     (∀ topic, topic ∈ InputTopics config →
               is_Some (TopicSerdes config !! topic)) →
     (∀ p, p ∈ partitions → is_Some (PartitionToContainerID config !! p)) →
     newClientErr env = None → newOffsetManagerErr env = None →
     newAsyncProducerErr env = None →
     ∃ tp, r = Ok tp
       ∧ tp_containerID tp = containerID
       ∧ tp_partitions tp = partitions
       ∧ dom (tp_partitionProcessors tp) = list_to_set (int32 <$> partitions)
       ∧ (NoDup (int32 <$> partitions) →
          size (tp_partitionProcessors tp) = length partitions
          ∧ ∀ j p, partitions !! j = Some p →
              tp_partitionProcessors tp !! int32 p
              = Some (newPartitionProcessor (makeProcessor j) p))).
Proof.
  intros r partitions. subst r. unfold NewTopicProcessor. fold partitions.
  split_and!.
  - intros Hout. by rewrite containerID_out_of_range.
  - intros (topic & Hin & Hnone).
    destruct (missingSerde (TopicSerdes config) (InputTopics config))
      as [topic'|] eqn:Hms.
    + apply missingSerde_Some in Hms as [Hin' Hnone'].
      split.
      * destruct ((containerID <? 0)
                  || (containerID >=? ContainerCount config)); by eexists.
      * intros Hrange. rewrite containerID_in_range by done. by eexists.
    + rewrite missingSerde_None in Hms.
      destruct (Hms topic Hin) as [x Hx]. congruence.
  - intros (p & Hin & Hnone).
    destruct (missingPartition (PartitionToContainerID config) partitions)
      as [p'|] eqn:Hmp.
    + apply missingPartition_Some in Hmp as [Hin' Hnone'].
      split.
      * destruct ((containerID <? 0)
                  || (containerID >=? ContainerCount config)); [by eexists|].
        destruct (missingSerde _ _); [by eexists|].
        destruct (newClientErr env); by eexists.
      * intros Hrange Hserdes ->. rewrite containerID_in_range by done.
        apply missingSerde_None in Hserdes. rewrite Hserdes. by eexists.
    + rewrite missingPartition_None in Hmp.
      destruct (Hmp p Hin) as [x Hx]. congruence.
  - intros Hrange Hserdes Hparts -> -> ->.
    rewrite containerID_in_range by done.
    apply missingSerde_None in Hserdes. rewrite Hserdes.
    apply missingPartition_None in Hparts. rewrite Hparts.
    eexists. split; [done|]. simpl. split_and!; [done..| |].
    + rewrite makePartitionProcessors_dom. set_solver.
    + intros Hnd. split.
      * rewrite <- size_dom, makePartitionProcessors_dom, dom_empty_L.
        rewrite (left_id_L ∅ (∪)), size_list_to_set by done.
        by rewrite length_fmap.
      * intros j p Hj.
        by rewrite (makePartitionProcessors_lookup 0 _ _ j p).
Qed.

End ConstructionProperties.

(** ** The properties on sample runs *)

(** The sample run: two outputs sent, then the commit wait services the
    two acknowledgements and commits. *)
Lemma commit_waits_for_ready_witness :
  let e := processConsumerMessage (ops := sampleOps) onePartition msg5 []
             acks5 [true; true] in
  (0 = 0 ∧ @nil action = []
   ∧ ∃ t0, take 13 (x_trace e)
           = t0 ++ [CallIsReadyToCommit 0 true; CallMarkOffsetsHook])
  ∧ (0 = 0 ∧ drop 12 (x_trace e) = [CallMarkOffsetsHook; CallCommit 0])
  ∧ commitPhase 0 Returned (drop 5 (x_trace e))
  ∧ ∃ pp, partitionProcessor.isReadyToCommit (Ops := sampleOps) pp = true
      ∧ x_procs e !! 0 = Some (partitionProcessor.commit (Ops := sampleOps) pp).
Proof.
  intros e.
  destruct (commit_waits_for_ready (ops := sampleOps) onePartition msg5 []
              acks5 [true; true]) as (H1 & H2 & H3 & H4).
  refine (conj _ (conj _ (conj _ _))).
  - apply (H1 (take 13 (x_trace e)) 0 []). vm_compute. reflexivity.
  - apply (H2 (take 11 (x_trace e)) 0 (drop 12 (x_trace e))).
    vm_compute. reflexivity.
  - apply (H3 [CallIsReadyForMessage 0 msg5 true] [out5; out5]
              [SendInput out5; SendInput out5] (drop 5 (x_trace e))).
    vm_compute. reflexivity.
  - apply (H4 [CallIsReadyForMessage 0 msg5 true] [out5; out5]
              (drop 2 (x_trace e))); vm_compute; reflexivity.
Defined.

(** A processor at capacity: one acknowledgement frees it, then the message
    is processed; with nothing to receive the run stays blocked. *)
Lemma process_waits_for_ready_witness :
  let e := processConsumerMessage (ops := sampleOps) atCapacity msg5 []
             ((Some out4, true) :: acks5) [true; true] in
  let a := onProducerAck (ops := sampleOps) atCapacity (Some out4) true in
  (0 = 0 ∧ msg5 = msg5
   ∧ (∃ w, waited 0 msg5 w
        ∧ take 4 (x_trace e) = w ++ [CallIsReadyForMessage 0 msg5 true])
   ∧ Forall (λ a, is_process a = false) (drop 5 (x_trace e)))
  ∧ e = after [CallIsReadyForMessage 0 msg5 false; RecvSuccess (Some out4) true]
          (after (e_trace a)
             (processConsumerMessage (ops := sampleOps) (e_procs a) msg5 []
                acks5 [true; true]))
  ∧ processConsumerMessage (ops := sampleOps) atCapacity msg5 [] [] [true]
    = Exec Blocked atCapacity [] [true]
        [CallIsReadyForMessage 0 msg5 false].
Proof.
  intros e a.
  destruct (process_waits_for_ready (ops := sampleOps) atCapacity msg5 []
              ((Some out4, true) :: acks5) [true; true]) as (H1 & H2 & _).
  destruct (process_waits_for_ready (ops := sampleOps) atCapacity msg5 []
              [] [true]) as (_ & _ & H3).
  refine (conj _ (conj _ _)).
  - apply (H1 (take 4 (x_trace e)) 0 msg5 [out5; out5] true
              (drop 5 (x_trace e))).
    vm_compute. reflexivity.
  - apply (H2 full (Some out4) true acks5); vm_compute; reflexivity.
  - apply (H3 full); vm_compute; reflexivity.
Defined.


(** The acknowledgement of [out4] reaches the processor of partition 0. *)
Lemma onProducerAck_routes_by_back_reference_witness :
  let e := onProducerAck (ops := sampleOps) atCapacity (Some out4) true in
  e_status e = Returned
  ∧ e_trace e = [CallOnProducerAck (int32 0) out4]
  ∧ e_procs e !! int32 0
    = Some (partitionProcessor.onProducerAck (Ops := sampleOps) full out4)
  ∧ (∀ k, k ≠ int32 0 →
       e_procs e !! k = atCapacity !! k)
  ∧ (- 2 ^ 31 ≤ 0 < 2 ^ 31 → int32 0 = 0).
Proof.
  apply (onProducerAck_routes_by_back_reference (ops := sampleOps)
           atCapacity out4 (mkIncomingMessage "in" 0 4) full);
    vm_compute; reflexivity.
Defined.

(** A run on an assigned partition, one on a container without processors,
    and a stray acknowledgement. *)
Lemma lookups_need_assigned_partitions_witness :
  let e := processConsumerMessage (ops := sampleOps) onePartition msg5 []
             acks5 [true; true] in
  let nowhere := processConsumerMessage (ops := sampleOps) unassigned msg5 []
                   acks5 [true; true] in
  let strayed := processConsumerMessage (ops := sampleOps) atCapacity
                   msg5 [] [(Some stray, true)] [true; true] in
  (x_status e ≠ Panicked
   ∧ ∀ msg more, (msg, more) ∈ acks5 →
       e_status (onProducerAck (ops := sampleOps) onePartition msg more)
       = Returned)
  ∧ (x_status nowhere = Panicked ∧ x_trace nowhere = [])
  ∧ e_status (onProducerAck (ops := sampleOps) onePartition (Some stray) true)
    = Panicked
  ∧ x_status strayed = Panicked.
Proof.
  intros e nowhere strayed.
  destruct (lookups_need_assigned_partitions (ops := sampleOps) onePartition
              msg5 [] acks5 [true; true]) as (H1 & _ & H3 & _).
  destruct (lookups_need_assigned_partitions (ops := sampleOps) unassigned
              msg5 [] acks5 [true; true]) as (_ & H2 & _ & _).
  destruct (lookups_need_assigned_partitions (ops := sampleOps)
              atCapacity msg5 [] [(Some stray, true)] [true; true])
    as (_ & _ & _ & H4).
  refine (conj _ (conj _ (conj _ _))).
  - apply H1.
    + apply elem_of_dom. exists idle. vm_compute. reflexivity.
    + repeat constructor.
  - apply H2. vm_compute. reflexivity.
  - apply (H3 (Some stray)). vm_compute. reflexivity.
  - apply (H4 full (Some stray) []); vm_compute; reflexivity.
Defined.

(** Two errors on the stream: the process ends at the first. *)
Lemma producer_errors_are_fatal_witness :
  errorDrainer [mkProducerError out5 "timeout"; mkProducerError out4 "timeout"]
  = (Fatal, [mkProducerError out5 "timeout"])
  ∧ ((errorDrainer []).1 = Returned → @nil ProducerError = []).
Proof.
  destruct producer_errors_are_fatal as (_ & H2 & H3).
  split; [apply H2|apply (H3 [])].
Defined.

(** A shutdown in which both [Close] calls succeed. *)
Lemma shutdown_sequence_witness :
  let e := runLoop (ops := sampleOps) closesCleanly onePartition
             [SelShutdown] [] [] in
  Shutdown 0 = (Returned, [CloseShutdownChan; WaitGroupWait])
  ∧ x_trace e = [RecvShutdown; CloseSyncChan; TickerStop; CallOnShutdown 0;
                 ProducerClose; ClientClose]
  ∧ x_status e = Returned.
Proof.
  intros e.
  destruct (shutdown_sequence (ops := sampleOps) closesCleanly onePartition
              [] [] [] 0) as (H1 & H2 & H3 & _ & _ & _ & H7).
  refine (conj _ (conj _ _)).
  - rewrite H1, (proj2 H2 eq_refl). reflexivity.
  - exact H3.
  - exact H7.
Defined.

(** C7, the failing case: when the producer's [Close] returns an error the
    coordinator ends the process after closing the producer; it neither
    closes the log client nor returns. *)
Lemma shutdown_producer_close_error :
  let e := runLoop (ops := sampleOps) closeFails onePartition
             [SelShutdown] [] [] in
  x_status e = Fatal
  ∧ x_trace e = [RecvShutdown; CloseSyncChan; TickerStop; CallOnShutdown 0;
                 ProducerClose]
  ∧ ¬ (ClientClose ∈ x_trace e ∧ x_status e = Returned).
Proof.
  refine (conj _ (conj _ _)); [by vm_compute..|].
  intros [_ Hret]. vm_compute in Hret. discriminate.
Qed.

(** C6, the failing case: container 0 of [wrappedConfig] is assigned the
    partitions 1 and 1 + 2^32.  The container id is in range, the input
    topic has a serde, both partitions are mapped and the brokers answer,
    so construction succeeds; but both partitions have the key
    [int32 1 = 1], and the result holds one processor for the two of
    them. *)
Lemma two_partitions_one_processor :
  let partitions := wrappedAssignment wrappedConfig 0 in
  0 ≤ 0 < ContainerCount wrappedConfig
  ∧ missingSerde (TopicSerdes wrappedConfig) (InputTopics wrappedConfig)
    = None
  ∧ missingPartition (PartitionToContainerID wrappedConfig) partitions = None
  ∧ NoDup partitions ∧ length partitions = 2%nat
  ∧ ∃ tp,
      NewTopicProcessor (MP := nat) wrappedAssignment (λ n p, (n, p)) id
        wrappedConfig 0 reachable = Ok tp
      ∧ tp_partitions tp = partitions
      ∧ size (tp_partitionProcessors tp) = 1%nat
      ∧ tp_partitionProcessors tp !! 1 = Some (1%nat, 1 + 2 ^ 32)
      ∧ ¬ (size (tp_partitionProcessors tp) = length partitions).
Proof.
  simpl. split_and!.
  - lia.
  - lia.
  - vm_compute. reflexivity.
  - vm_compute. reflexivity.
  - apply NoDup_cons. split.
    + intros Hin%list_elem_of_singleton. vm_compute in Hin. discriminate.
    + apply NoDup_singleton.
  - reflexivity.
  - eexists. split; [vm_compute; reflexivity|].
    split_and!; try (vm_compute; reflexivity).
    vm_compute. discriminate.
Qed.

(** Construction for container 2 of 2, with a topic without serde, with
    the unmapped partition 2, and for container 1. *)
Lemma NewTopicProcessor_setup_witness :
  let new := NewTopicProcessor (MP := unit) sampleAssignment (λ _ p, p)
               (λ _, ()) in
  new sampleConfig 2 reachable = LogFatal (FatalContainerID 2 2)
  ∧ ((∃ f, new twoTopics 1 reachable = LogFatal f)
     ∧ ∃ topic, new twoTopics 1 reachable = LogFatal (FatalNoSerde topic)
                ∧ topic ∈ InputTopics twoTopics
                ∧ TopicSerdes twoTopics !! topic = None)
  ∧ ((∃ f, new sampleConfig 0 reachable = LogFatal f)
     ∧ ∃ p, new sampleConfig 0 reachable = LogFatal (FatalNoPartitionMapping p)
            ∧ p ∈ sampleAssignment sampleConfig 0
            ∧ PartitionToContainerID sampleConfig !! p = None)
  ∧ ∃ tp, new sampleConfig 1 reachable = Ok tp
      ∧ tp_containerID tp = 1
      ∧ tp_partitions tp = [1]
      ∧ dom (tp_partitionProcessors tp) = list_to_set (int32 <$> [1])
      ∧ size (tp_partitionProcessors tp) = 1%nat
      ∧ tp_partitionProcessors tp !! int32 1 = Some 1.
Proof.
  intros new.
  assert (∀ topic, topic ∈ InputTopics sampleConfig →
            is_Some (TopicSerdes sampleConfig !! topic)) as Hserdes.
  { intros topic [->|Hin%elem_of_nil]%elem_of_cons; [|done].
    exists unitSerde. vm_compute. reflexivity. }
  refine (conj _ (conj _ (conj _ _))).
  - apply (NewTopicProcessor_setup (MP := unit) sampleAssignment (λ _ p, p)
             (λ _, ()) sampleConfig 2 reachable).
    right. simpl. lia.
  - destruct (NewTopicProcessor_setup (MP := unit) sampleAssignment
                (λ _ p, p) (λ _, ()) twoTopics 1 reachable)
      as (_ & H2 & _).
    destruct H2 as [Hf Ht].
    + exists "other"%string. split; [|vm_compute; reflexivity].
      right. left.
    + split; [exact Hf|]. apply Ht. simpl. lia.
  - destruct (NewTopicProcessor_setup (MP := unit) sampleAssignment
                (λ _ p, p) (λ _, ()) sampleConfig 0 reachable)
      as (_ & _ & H3 & _).
    destruct H3 as [Hf Hp].
    + exists 2. split; [|vm_compute; reflexivity].
      right. left.
    + split; [exact Hf|]. apply Hp; [|exact Hserdes|reflexivity].
      simpl. lia.
  - destruct (NewTopicProcessor_setup (MP := unit) sampleAssignment
                (λ _ p, p) (λ _, ()) sampleConfig 1 reachable)
      as (_ & _ & _ & H4).
    destruct H4 as (tp & Htp & Hid & Hparts & Hdom & Hone);
      [|exact Hserdes| |reflexivity..|].
    + simpl. lia.
    + intros p [->|Hin%elem_of_nil]%elem_of_cons; [|done].
      exists 1. vm_compute. reflexivity.
    + destruct Hone as [Hsize Hlookup].
      { repeat constructor. apply not_elem_of_nil. }
      exists tp. refine (conj Htp (conj Hid (conj Hparts (conj Hdom _)))).
      split; [exact Hsize|]. exact (Hlookup 0%nat 1 eq_refl).
Defined.

(** ** Further properties of the coordinator *)

Section Accounting.

Context {PP : Type} {ops : partitionProcessor.Ops PP}.

Implicit Types (pps : gmap Z PP) (successes : list ack) (ready : list bool).

Lemma recvs_app t1 t2 : recvs (t1 ++ t2) = recvs t1 ++ recvs t2.
Proof.
  induction t1 as [|a t1 IH]; [done|].
  destruct a; simpl; by rewrite ?IH.
Qed.

Lemma routes_app t1 t2 : routes (t1 ++ t2) = routes t1 ++ routes t2.
Proof.
  induction t1 as [|a t1 IH]; [done|].
  destruct a; simpl; by rewrite ?IH.
Qed.

(** What one call of [tp.onProducerAck] does to the map and to the trace. *)
Lemma onProducerAck_effect pps msg more :
  let a := onProducerAck pps msg more in
  recvs (e_trace a) = []
  ∧ ((e_status a = Returned
      ∧ routes (e_trace a) = omap routeOf [(msg, more)]
      ∧ ∀ k, k ∉ (routes (e_trace a)).*1 → e_procs a !! k = pps !! k)
     ∨ (e_status a = Panicked ∧ e_trace a = [] ∧ e_procs a = pps)).
Proof.
  unfold onProducerAck.
  destruct more; simpl; [|split; [done|left; by destruct msg]].
  destruct msg as [pm|]; [|split; [done|by right]].
  destruct (pm_Metadata pm) as [[im|]|] eqn:Hmeta; simpl;
    try (split; [done|by right]).
  destruct (pps !! int32 (im_Partition im)) eqn:Hk; simpl;
    [|split; [done|by right]].
  split; [done|left]. split_and!; [done..|].
  intros k Hk'. rewrite lookup_insert_ne; [done|].
  intros Heq. apply Hk'. rewrite Heq. apply list_elem_of_here.
Qed.

Lemma tracks_stop own pps successes ready o t :
  recvs t = [] → routes t = [] →
  tracks own pps successes (Exec o pps successes ready t).
Proof.
  intros Hr Ht. unfold tracks. simpl. rewrite Hr, Ht. by split_and!.
Qed.

Lemma tracks_after own pps successes t e :
  recvs t = [] → routes t = [] →
  tracks own pps successes e → tracks own pps successes (after t e).
Proof.
  intros Hr Ht. unfold tracks. simpl.
  by rewrite recvs_app, routes_app, Hr, Ht.
Qed.

Lemma tracks_pre own pps pps' successes e :
  dom pps' = dom pps →
  (∀ k, k ∉ own → pps' !! k = pps !! k) →
  tracks own pps' successes e → tracks own pps successes e.
Proof.
  intros Hd Hf (H1 & H2 & H3 & H4 & H5).
  split_and!; [done..|by rewrite H4|].
  intros k Hown Hk. rewrite H5 by done. by apply Hf.
Qed.

Lemma tracks_own_update own pps k pp v successes e :
  k ∈ own → pps !! k = Some pp →
  tracks own (<[k:=v]> pps) successes e → tracks own pps successes e.
Proof.
  intros Hown Hpp. apply tracks_pre.
  - rewrite dom_insert_L. apply elem_of_dom_2 in Hpp. set_solver.
  - intros k' Hk'. apply lookup_insert_ne. by intros ->.
Qed.

Lemma tracks_andThen own pps successes e k :
  tracks own pps successes e →
  (x_status e = Returned →
   tracks own (x_procs e) (x_successes e)
     (k (x_procs e) (x_successes e) (x_ready e))) →
  tracks own pps successes (andThen e k).
Proof.
  intros He Hk. unfold andThen.
  destruct (x_status e) eqn:Hst; try done.
  destruct He as (H1 & H2 & H3 & H4 & H5).
  destruct (Hk eq_refl) as (K1 & K2 & K3 & K4 & K5).
  assert (routes (x_trace e) = omap routeOf (recvs (x_trace e))) as Heq
    by (apply H3; by rewrite Hst).
  unfold tracks. simpl.
  rewrite recvs_app, routes_app, omap_app, Heq.
  split_and!.
  - by rewrite <- app_assoc, K1.
  - by apply prefix_app.
  - intros Hp. by rewrite K3.
  - by rewrite K4.
  - intros k' Hown Hk'. rewrite <- Heq in Hk'.
    rewrite fmap_app, not_elem_of_app in Hk'. destruct Hk' as [Hk1 Hk2].
    rewrite K5 by done. by apply H5.
Qed.

Lemma omap_routeOf_cons a l :
  omap routeOf (a :: l) = omap routeOf [a] ++ omap routeOf l.
Proof. simpl. by destruct (routeOf a). Qed.

(** One value received and routed, then the rest of the run. *)
Lemma tracks_round own pps msg more successes ready t k :
  recvs t = [] → routes t = [] →
  (e_status (onProducerAck pps msg more) = Returned →
   tracks own (e_procs (onProducerAck pps msg more)) successes
     (k (e_procs (onProducerAck pps msg more)))) →
  tracks own pps ((msg, more) :: successes)
    (after (t ++ [RecvSuccess msg more])
       (afterAck (onProducerAck pps msg more) successes ready k)).
Proof.
  intros Hr Ht Hk. unfold afterAck.
  destruct (onProducerAck_effect pps msg more)
    as [Ha [(Hst & Hroute & Hframe)|(Hst & Htr & Hprocs)]].
  - rewrite Hst. destruct (Hk Hst) as (K1 & K2 & K3 & K4 & K5).
    unfold tracks. cbn [x_trace x_status x_procs x_successes after].
    rewrite !recvs_app, !routes_app, Hr, Ht, Ha.
    change (recvs [RecvSuccess msg more]) with [(msg, more)].
    change (routes [RecvSuccess msg more]) with (@nil (Z * ProducerMessage)).
    cbn [app]. rewrite omap_routeOf_cons, Hroute.
    split_and!.
    + by rewrite K1.
    + by apply prefix_app.
    + intros Hp. by rewrite K3.
    + by rewrite K4, onProducerAck_dom.
    + intros k' Hown Hk'. rewrite <- Hroute in Hk'.
      rewrite fmap_app, not_elem_of_app in Hk'. destruct Hk' as [Hk1 Hk2].
      rewrite K5 by done. by apply Hframe.
  - rewrite Hst, Htr, Hprocs. unfold tracks.
    cbn [x_trace x_status x_procs x_successes after].
    rewrite !recvs_app, !routes_app, Hr, Ht. cbn [app recvs routes].
    split_and!; [done|apply prefix_nil|done..].
Qed.

Lemma commitWait_tracks own k pps successes ready :
  k ∈ own → tracks own pps successes (commitWait k pps successes ready).
Proof.
  intros Hown. revert pps.
  induction successes as [|[msg more] successes IH]; intros pps; simpl;
    (destruct (pps !! k) as [pp|] eqn:Hpp; [|by apply tracks_stop]);
    (destruct (partitionProcessor.isReadyToCommit pp);
       [eapply tracks_own_update; [done..|]; by apply tracks_stop|]).
  - by apply tracks_stop.
  - apply (tracks_round own pps msg more successes ready
             [CallIsReadyToCommit k false]); [done..|].
    intros _. apply IH.
Qed.

Lemma submit_tracks own pps pms successes ready :
  tracks own pps successes (submit pps pms successes ready).
Proof.
  revert pps pms successes.
  induction ready as [|b ready IH]; intros pps pms successes;
    (destruct pms as [|pm rest]; [by apply tracks_stop|]);
    [by apply tracks_stop|].
  destruct b; simpl.
  - apply tracks_after; [done..|]. apply IH.
  - destruct successes as [|[msg more] successes]; [by apply tracks_stop|].
    apply (tracks_round own pps msg more successes ready []); [done..|].
    intros _. apply IH.
Qed.

Lemma processReady_tracks own k m pp pps successes ready :
  k ∈ own → pps !! k = Some pp →
  tracks own pps successes (processReady k m pp pps successes ready).
Proof.
  intros Hown Hpp. unfold processReady.
  destruct (partitionProcessor.process pp m) as [[pp1 outs] mc].
  apply tracks_after; [done..|].
  eapply tracks_own_update; [done..|].
  apply tracks_andThen; [apply submit_tracks|].
  intros _.
  destruct (x_procs (submit (<[k:=pp1]> pps) outs successes ready) !! k)
    as [pp2|] eqn:Hpp2; [|by apply tracks_stop].
  apply tracks_after; [done..|].
  eapply tracks_own_update; [done..|].
  destruct mc; [by apply commitWait_tracks|by apply tracks_stop].
Qed.

Lemma processConsumerMessage_tracks own pps m tickerChan successes ready :
  cm_Partition m ∈ own →
  tracks own pps successes
    (processConsumerMessage pps m tickerChan successes ready).
Proof.
  intros Hown. revert pps.
  induction successes as [|[msg more] successes IH]; intros pps; simpl;
    (destruct (pps !! cm_Partition m) as [pp|] eqn:Hpp;
       [|by apply tracks_stop]);
    (destruct (partitionProcessor.isReadyForMessage pp m);
       [apply tracks_after; [done..|]; by apply processReady_tracks|]).
  - by apply tracks_stop.
  - apply (tracks_round own pps msg more successes ready
             [CallIsReadyForMessage (cm_Partition m) m false]); [done..|].
    intros _. apply IH.
Qed.

Lemma routes_map_tick (ks : list (Z * PP)) :
  routes (map (λ kv, CallOnMarkOffsetsTick kv.1) ks) = []
  ∧ recvs (map (λ kv, CallOnMarkOffsetsTick kv.1) ks) = [].
Proof. induction ks as [|kv ks [IH1 IH2]]; done. Qed.

Lemma routes_map_shutdown (ks : list (Z * PP)) t :
  routes t = [] → recvs t = [] →
  routes (map (λ kv, CallOnShutdown kv.1) ks ++ t) = []
  ∧ recvs (map (λ kv, CallOnShutdown kv.1) ks ++ t) = [].
Proof. intros Ht Hr. induction ks as [|kv ks [IH1 IH2]]; done. Qed.

Lemma runLoop_tracks own env pps sched successes ready :
  dom pps ⊆ own →
  tracks own pps successes (runLoop env pps sched successes ready).
Proof.
  revert pps successes ready.
  induction sched as [|[m| | |] sched IH]; intros pps successes ready Hown;
    simpl.
  - by apply tracks_stop.
  - apply tracks_after; [done..|].
    assert (tracks (own ∪ {[cm_Partition m]}) pps successes
              (processConsumerMessage pps m (tickerChan env) successes ready))
      as Hm by (apply processConsumerMessage_tracks; set_solver).
    assert (tracks own pps successes
              (processConsumerMessage pps m (tickerChan env) successes ready))
      as Hm'.
    { destruct Hm as (H1 & H2 & H3 & H4 & H5). split_and!; try done.
      intros k Hk Hr. destruct (decide (k = cm_Partition m)) as [->|Hne].
      - rewrite (not_elem_of_dom_1 pps) by set_solver.
        apply not_elem_of_dom. rewrite H4. set_solver.
      - apply H5; [set_solver|done]. }
    apply tracks_andThen; [done|].
    intros _. apply IH. destruct Hm' as (_ & _ & _ & -> & _). done.
  - destruct successes as [|[msg more] successes]; [by apply tracks_stop|].
    apply (tracks_round own pps msg more successes ready []); [done..|].
    intros _. apply IH. by rewrite onProducerAck_dom.
  - destruct (markOffsetsAutomatically env); [|by apply tracks_stop].
    unfold afterAck, onMarkOffsetsTick. simpl.
    destruct (routes_map_tick (map_to_list pps)) as [Hr1 Hr2].
    apply tracks_after; [done..|]. apply tracks_after; [done..|].
    apply (tracks_pre own pps (partitionProcessor.onMarkOffsetsTick <$> pps)).
    + by rewrite dom_fmap_L.
    + intros k Hk. rewrite lookup_fmap.
      by rewrite (not_elem_of_dom_1 pps) by set_solver.
    + apply IH. by rewrite dom_fmap_L.
  - unfold afterAck, onShutdown.
    assert (∀ t, routes t = [] → recvs t = [] →
              ∀ o, tracks own pps successes
                (after [RecvShutdown; CloseSyncChan]
                   (after ((if markOffsetsAutomatically env
                            then [TickerStop] else [])
                           ++ map (λ kv, CallOnShutdown kv.1)
                                (map_to_list pps) ++ t)
                      (Exec o (partitionProcessor.onShutdown <$> pps)
                         successes ready [])))) as Hgen.
    { intros t Ht Hr o.
      destruct (routes_map_shutdown (map_to_list pps) t Ht Hr) as [Hr1 Hr2].
      apply tracks_after; [done..|]. apply tracks_after.
      - rewrite recvs_app, Hr2. by destruct (markOffsetsAutomatically env).
      - rewrite routes_app, Hr1. by destruct (markOffsetsAutomatically env).
      - apply (tracks_pre own pps (partitionProcessor.onShutdown <$> pps)).
        + by rewrite dom_fmap_L.
        + intros k Hk. rewrite lookup_fmap.
          by rewrite (not_elem_of_dom_1 pps) by set_solver.
        + by apply tracks_stop. }
    destruct (producerCloseErr env), (clientCloseErr env); simpl.
    + apply (Hgen [ProducerClose]); done.
    + apply (Hgen [ProducerClose]); done.
    + rewrite <- !app_assoc. apply (Hgen [ProducerClose; ClientClose]); done.
    + rewrite <- !app_assoc. apply (Hgen [ProducerClose; ClientClose]); done.
Qed.

(** X2: in a run that does not panic, every received value with a readable
    back-reference is handed to [pp.onProducerAck] exactly once, on the
    processor of the back-reference's partition, in the order of arrival,
    and no other call of [pp.onProducerAck] is made; a run that panics has
    made a prefix of these calls. *)
Theorem acks_routed_once_in_order pps m tickerChan env sched successes
    ready :
  let e := processConsumerMessage pps m tickerChan successes ready in
  let l := runLoop env pps sched successes ready in
  (x_status e ≠ Panicked →
   routes (x_trace e) = omap routeOf (recvs (x_trace e)))
  ∧ routes (x_trace e) `prefix_of` omap routeOf (recvs (x_trace e))
  ∧ (x_status l ≠ Panicked →
     routes (x_trace l) = omap routeOf (recvs (x_trace l)))
  ∧ routes (x_trace l) `prefix_of` omap routeOf (recvs (x_trace l)).
Proof.
  intros e l.
  destruct (processConsumerMessage_tracks {[cm_Partition m]} pps m
              tickerChan successes ready) as (_ & H2 & H3 & _);
    [set_solver|].
  destruct (runLoop_tracks (dom pps) env pps sched successes ready)
    as (_ & L2 & L3 & _); [done|].
  by split_and!.
Qed.

(** X3: neither [processConsumerMessage] nor [runLoop] (ticks and shutdown
    included) adds or removes a partition processor: the keys of
    [partitionProcessors] at the end are those at the start. *)
Theorem processors_never_added_or_removed pps m tickerChan env sched
    successes ready :
  dom (x_procs (processConsumerMessage pps m tickerChan successes ready))
  = dom pps
  ∧ dom (x_procs (runLoop env pps sched successes ready)) = dom pps.
Proof.
  split.
  - by destruct (processConsumerMessage_tracks {[cm_Partition m]} pps m
                   tickerChan successes ready) as (_ & _ & _ & H4 & _);
      [set_solver|].
  - by destruct (runLoop_tracks (dom pps) env pps sched successes ready)
      as (_ & _ & _ & H4 & _).
Qed.

(** X4: [processConsumerMessage] leaves alone every processor other than
    the one of the message's partition and those that the back-references
    of the delivered acknowledgements point to. *)
Theorem other_processors_untouched pps m tickerChan successes ready k :
  k ≠ cm_Partition m →
  k ∉ (omap routeOf successes).*1 →
  x_procs (processConsumerMessage pps m tickerChan successes ready) !! k
  = pps !! k.
Proof.
  intros Hne Hk.
  destruct (processConsumerMessage_tracks {[cm_Partition m]} pps m
              tickerChan successes ready) as (H1 & H2 & _ & _ & H5);
    [set_solver|].
  apply H5; [set_solver|].
  intros Hin. apply Hk.
  destruct H2 as [rest Hrest].
  rewrite <- H1, omap_app, Hrest, !fmap_app, !elem_of_app. auto.
Qed.

(** X5: acknowledgements whose back-references point to different
    processors can be routed in either order: both calls return and the
    resulting processors are the same. *)
Theorem acks_of_different_partitions_commute pps pm1 im1 pm2 im2 :
  pm_Metadata pm1 = MetaIncoming (Some im1) →
  pm_Metadata pm2 = MetaIncoming (Some im2) →
  int32 (im_Partition im1) ≠ int32 (im_Partition im2) →
  is_Some (pps !! int32 (im_Partition im1)) →
  is_Some (pps !! int32 (im_Partition im2)) →
  let a1 := onProducerAck pps (Some pm1) true in
  let a2 := onProducerAck pps (Some pm2) true in
  let a12 := onProducerAck (e_procs a1) (Some pm2) true in
  let a21 := onProducerAck (e_procs a2) (Some pm1) true in
  e_status a12 = Returned ∧ e_status a21 = Returned
  ∧ e_procs a12 = e_procs a21.
Proof.
  intros Hm1 Hm2 Hne [pp1 Hpp1] [pp2 Hpp2]. unfold onProducerAck. simpl.
  rewrite Hm1, Hm2, Hpp1, Hpp2. simpl. rewrite ?Hm1, ?Hm2.
  rewrite !lookup_insert_ne, Hpp1, Hpp2 by done. simpl.
  split_and!; [done..|]. by apply insert_insert_ne.
Qed.

(** X6: once the success channel is closed (every receive yields
    [more = false]) the two waits of [processConsumerMessage] cannot make
    progress: a processor that is not ready for the message stays so, the
    message is never processed and the processors are unchanged; a
    processor that is not ready to commit is never committed. *)
Theorem closed_success_channel_starves pps m tickerChan successes ready pp :
  Forall (λ a : ack, a.2 = false) successes →
  pps !! cm_Partition m = Some pp →
  (partitionProcessor.isReadyForMessage pp m = false →
   let e := processConsumerMessage pps m tickerChan successes ready in
   x_status e = Blocked ∧ x_procs e = pps ∧ x_successes e = []
   ∧ x_ready e = ready ∧ processes (x_trace e) = [])
  ∧ (partitionProcessor.isReadyToCommit pp = false →
     let e := commitWait (cm_Partition m) pps successes ready in
     x_status e = Blocked ∧ x_procs e = pps ∧ x_successes e = []
     ∧ Forall (λ a, is_commit a = false) (x_trace e)).
Proof.
  intros Hall Hpp. split; intros Hnot.
  - induction Hall as [|[msg more] successes Hmore Hall IH]; simpl;
      rewrite Hpp, Hnot; [done|].
    simpl in Hmore. subst more. simpl. apply IH.
  - induction Hall as [|[msg more] successes Hmore Hall IH]; simpl;
      rewrite Hpp, Hnot; simpl.
    + split_and!; [done..|]. by repeat constructor.
    + simpl in Hmore. subst more. simpl.
      destruct IH as (? & ? & ? & ?). split_and!; [done..|].
      by repeat constructor.
Qed.

(** X7: [onMarkOffsetsTick] returns after calling the user's hook first
    and then [pp.onMarkOffsetsTick] exactly once on every partition
    processor; the keys of the map are unchanged and every processor is the
    one it was, updated by that call. *)
Theorem tick_marks_every_processor_once pps :
  let a := onMarkOffsetsTick pps in
  let ks := (map_to_list pps).*1 in
  e_status a = Returned
  ∧ e_trace a = CallMarkOffsetsHook :: map CallOnMarkOffsetsTick ks
  ∧ NoDup ks ∧ (∀ k, k ∈ ks ↔ k ∈ dom pps)
  ∧ dom (e_procs a) = dom pps
  ∧ ∀ k pp, pps !! k = Some pp →
      e_procs a !! k = Some (partitionProcessor.onMarkOffsetsTick pp).
Proof.
  intros a ks. subst a ks. unfold onMarkOffsetsTick. simpl.
  split_and!.
  - done.
  - by rewrite <- (map_map fst CallOnMarkOffsetsTick).
  - apply NoDup_fst_map_to_list.
  - intros k. rewrite elem_of_dom, list_elem_of_fmap. split.
    + intros ([k' pp] & -> & Hin). apply elem_of_map_to_list in Hin.
      by eexists.
    + intros [pp Hpp]. exists (k, pp). split; [done|].
      by apply elem_of_map_to_list.
  - by rewrite dom_fmap_L.
  - intros k pp Hpp. by rewrite lookup_fmap, Hpp.
Qed.

End Accounting.

Section Loop.

Context {PP : Type} {ops : partitionProcessor.Ops PP}.

Implicit Types (pps : gmap Z PP) (successes : list ack) (ready : list bool).

(** Closes [Forall (λ a, P a = false) t] for a classifier [P] and a trace
    [t] assembled from explicit actions and pieces whose alphabet is
    known. *)
Ltac lacks :=
  repeat first [ apply Forall_nil_2 | apply Forall_cons_2; [done|]
               | apply Forall_app_2 ];
  try done;
  try (eapply Forall_impl;
       [ first [ eapply routed_alphabet; eassumption
               | eapply submitPhase_alphabet; eassumption
               | eapply commitPhase_alphabet; eassumption
               | eapply processed_alphabet; eassumption
               | eapply handling_alphabet; eassumption
               | eapply onProducerAck_alphabet
               | eassumption ]
       | intros []; simpl; congruence ]).

Lemma submitPhase_status outs o s : submitPhase outs o s → o ≠ Fatal.
Proof. induction 1; done. Qed.

Lemma commitPhase_status k o c : commitPhase k o c → o ≠ Fatal.
Proof. induction 1; done. Qed.

Lemma handling_status k m o t : handling k m o t → o ≠ Fatal.
Proof.
  induction 1 as [| |msg|o msg more ta t Hr Hh IH|outs mc o t Hp]; try done.
  destruct Hp as [o' s Hs Ho|s Hmc Hs|s o' c Hmc Hs Hc]; [|done|].
  - by eapply submitPhase_status.
  - by eapply commitPhase_status.
Qed.

Lemma commitPhase_returned k c :
  commitPhase k Returned c →
  ∃ pre, Forall (λ a, commit_action a = true) pre
    ∧ c = pre ++ [CallIsReadyToCommit k true; CallMarkOffsetsHook;
                  CallCommit k].
Proof.
  intros Hc. remember Returned as o eqn:Ho.
  induction Hc as [| |msg|o msg more ta t Hr Hc IH]; try done.
  - by exists [].
  - destruct (IH Ho) as (pre & Hpre & ->).
    exists (CallIsReadyToCommit k false :: RecvSuccess msg more :: ta ++ pre).
    split; [|by simpl; rewrite <- app_assoc].
    repeat first [ apply Forall_cons_2; [done|] | apply Forall_app_2 ];
      [|done].
    eapply Forall_impl; [by eapply routed_alphabet|]. by intros [].
Qed.

Lemma processes_app t1 t2 :
  processes (t1 ++ t2) = processes t1 ++ processes t2.
Proof.
  induction t1 as [|a t1 IH]; [done|].
  destruct a; simpl; by rewrite ?IH.
Qed.

Lemma received_app t1 t2 : received (t1 ++ t2) = received t1 ++ received t2.
Proof.
  induction t1 as [|a t1 IH]; [done|].
  destruct a; simpl; by rewrite ?IH.
Qed.

Lemma processes_absent t :
  Forall (λ a, is_process a = false) t → processes t = [].
Proof. induction 1 as [|[] t Ha Ht IH]; done. Qed.

Lemma received_absent t :
  Forall (λ a, is_loop_receive a = false) t → received t = [].
Proof. induction 1 as [|[] t Ha Ht IH]; done. Qed.

(** A trace of [processConsumerMessage] holds no receive from the merged
    channel and at most one call of [process], for the message; it holds
    that call when the run returns. *)
Lemma handling_processes k m o t :
  handling k m o t →
  received t = []
  ∧ (processes t = [] ∨ processes t = [m])
  ∧ (o = Returned → processes t = [m]).
Proof.
  intros Hh. split.
  { apply received_absent. lacks. }
  induction Hh as [| |msg|o msg more ta t Hr Hh [IH1 IH2]|outs mc o t Hp];
    try (split; [by left|done]).
  - simpl. by rewrite processes_app, (processes_absent ta) by lacks.
  - simpl. rewrite (processes_absent t) by lacks. split; [by right|done].
Qed.

(** What a trace of a run that returned looks like. *)
Lemma handling_returned k m t :
  handling k m Returned t →
  ∃ t0 outs mc t1,
    t = t0 ++ CallProcess k m outs mc :: t1
    ∧ sends t = outs
    ∧ CallOnProcessCompleted k ∈ t1
    ∧ (mc = true →
       ∃ t2, t1 = t2 ++ [CallIsReadyToCommit k true; CallMarkOffsetsHook;
                          CallCommit k])
    ∧ (mc = false → Forall (λ a, commit_step a = false) t).
Proof.
  intros Hh. remember Returned as o eqn:Ho.
  induction Hh as [| |msg|o msg more ta t Hr Hh IH|outs mc o t Hp]; try done.
  - destruct (IH Ho) as (t0 & outs & mc & t1 & -> & Hs & Hin & Hc & Hn).
    exists (CallIsReadyForMessage k m false :: RecvSuccess msg more
              :: ta ++ t0), outs, mc, t1.
    split_and!; [by simpl; rewrite <- app_assoc| |done..|].
    + simpl. by rewrite sends_app, (sends_absent ta) by lacks.
    + intros Hmc. specialize (Hn Hmc). simpl.
      apply Forall_cons_2; [done|]. apply Forall_cons_2; [done|].
      apply Forall_app_2; [lacks|done].
  - exists [CallIsReadyForMessage k m true], outs, mc, t.
    destruct (processed_sends _ _ _ _ _ Hp) as (_ & _ & Hall).
    split_and!; [done|by apply Hall|..].
    + destruct Hp as [o' s Hs Hne|s Hmc Hs|s o' c Hmc Hs Hc]; [congruence|..];
        apply elem_of_app; right; by left.
    + intros ->.
      destruct Hp as [o' s Hs Hne|s Hmc Hs|s o' c Hmc Hs Hc];
        [congruence|done|].
      subst o'. destruct (commitPhase_returned _ _ Hc) as (pre & _ & ->).
      exists (s ++ CallOnProcessCompleted k :: pre).
      by rewrite <- app_assoc.
    + intros ->.
      destruct Hp as [o' s Hs Hne|s Hmc Hs|s o' c Hmc Hs Hc];
        [congruence| |done].
      lacks.
Qed.

(** X8: [processConsumerMessage] returns only after it has called
    [pp.process] on the message, written all the outputs to [Input()] and
    called [pp.onProcessCompleted]; with [mustCommit] its last three steps
    are the successful test, the hook and [pp.commit], and without it
    neither the hook nor [pp.commit] is called.  It never ends the process
    with [log.Fatal]. *)
Theorem returned_means_processed pps m tickerChan successes ready :
  let e := processConsumerMessage pps m tickerChan successes ready in
  let k := cm_Partition m in
  x_status e ≠ Fatal
  ∧ (x_status e = Returned →
     ∃ t0 outs mc t1,
       x_trace e = t0 ++ CallProcess k m outs mc :: t1
       ∧ sends (x_trace e) = outs
       ∧ CallOnProcessCompleted k ∈ t1
       ∧ (mc = true →
          ∃ t2, t1 = t2 ++ [CallIsReadyToCommit k true; CallMarkOffsetsHook;
                             CallCommit k])
       ∧ (mc = false → Forall (λ a, commit_step a = false) (x_trace e))).
Proof.
  intros e k.
  pose proof (processConsumerMessage_trace pps m tickerChan successes ready)
    as Hh. fold e k in Hh. simpl in Hh.
  split; [by eapply handling_status|].
  intros Hret. rewrite Hret in Hh. by apply handling_returned.
Qed.




Lemma onShutdown_alphabet pps ticker pe ce :
  Forall (λ a, shutdown_action a = true)
    (e_trace (onShutdown pps ticker pe ce)).
Proof.
  unfold onShutdown.
  assert (Forall (λ a, shutdown_action a = true)
            (map (λ kv : Z * PP, CallOnShutdown kv.1) (map_to_list pps)))
    as Hmap by (by apply Forall_map, Forall_true).
  destruct ticker, pe, ce; simpl;
    repeat first [ apply Forall_nil_2 | apply Forall_cons_2; [done|]
                 | apply Forall_app_2 ]; done.
Qed.

(** X10: the shutdown signal is the last thing [runLoop] receives: what
    follows it in a trace is only the shutdown sequence (closing the
    synchroniser, stopping the ticker, [onShutdown] on the processors,
    closing producer and client); no consumer message, acknowledgement or
    tick is handled after it, and it is received at most once. *)
Theorem nothing_follows_shutdown env pps sched successes ready t1 t2 :
  x_trace (runLoop env pps sched successes ready) = t1 ++ RecvShutdown :: t2 →
  Forall (λ a, is_shutdown a = false) t1
  ∧ Forall (λ a, shutdown_action a = true) t2.
Proof.
  revert pps successes ready t1.
  induction sched as [|[m| | |] sched IH]; intros pps successes ready t1;
    simpl; intros Heq.
  - by destruct t1.
  - pose proof (processConsumerMessage_trace pps m (tickerChan env)
                  successes ready) as Hh. simpl in Hh.
    revert Heq. unfold andThen.
    destruct (x_status (processConsumerMessage pps m (tickerChan env)
                          successes ready)) eqn:Hst; simpl; intros Heq;
      try (by eapply (no_occurrence is_shutdown) in Heq; [|lacks|]).
    symmetry in Heq. rewrite app_comm_cons in Heq.
    apply (split_at_first is_shutdown) in Heq as (t1' & -> & Heq);
      [|lacks|done].
    destruct (IH _ _ _ _ Heq) as [H1 H2]. split; [|done].
    apply Forall_app_2; [lacks|done].
  - destruct successes as [|[msg more] successes]; simpl in Heq;
      [by destruct t1|].
    revert Heq. unfold afterAck.
    destruct (e_status (onProducerAck pps msg more)); simpl;
      rewrite ?app_nil_r; intros Heq;
      try (by eapply (no_occurrence is_shutdown) in Heq; [|lacks|]).
    symmetry in Heq. rewrite app_comm_cons in Heq.
    apply (split_at_first is_shutdown) in Heq as (t1' & -> & Heq);
      [|lacks|done].
    destruct (IH _ _ _ _ Heq) as [H1 H2]. split; [|done].
    apply Forall_app_2; [lacks|done].
  - destruct (markOffsetsAutomatically env); simpl in Heq;
      [|by destruct t1].
    assert (Forall (λ a, is_shutdown a = false)
              (RecvTick :: CallMarkOffsetsHook
                 :: map (λ kv : Z * PP, CallOnMarkOffsetsTick kv.1)
                      (map_to_list pps))) as Hpre.
    { do 2 (apply Forall_cons_2; [done|]). by apply Forall_map, Forall_true. }
    symmetry in Heq. rewrite !app_comm_cons in Heq.
    apply (split_at_first is_shutdown) in Heq as (t1' & -> & Heq);
      [|done..].
    destruct (IH _ _ _ _ Heq) as [H1 H2]. split; [|done].
    by apply Forall_app_2.
  - pose proof (onShutdown_alphabet pps (markOffsetsAutomatically env)
                  (producerCloseErr env) (clientCloseErr env)) as Ha.
    revert Heq. unfold afterAck.
    set (a := onShutdown _ _ _ _) in *.
    assert (Forall (λ a, shutdown_action a = true)
              (CloseSyncChan :: e_trace a)) as Hrest by by constructor.
    assert (∀ o, x_trace (Exec o (e_procs a) successes ready []) = [])
      as Hnil by done.
    destruct (e_status a); simpl; rewrite app_nil_r; intros Heq;
      symmetry in Heq;
      apply (only_occurrence is_shutdown []) in Heq as (-> & _ & ->);
      try done;
      (eapply Forall_impl; [exact Hrest|]; intros []; simpl; congruence).
Qed.

(** X11: without automatic marking the ticker case of [runLoop] never
    fires: no tick is received, [pp.onMarkOffsetsTick] is never called and
    no ticker is stopped at shutdown. *)
Theorem no_ticks_without_automatic_marking env pps sched successes ready :
  markOffsetsAutomatically env = false →
  Forall (λ a, is_tick a = false ∧ a ≠ TickerStop)
    (x_trace (runLoop env pps sched successes ready)).
Proof.
  intros Hauto. revert pps successes ready.
  induction sched as [|[m| | |] sched IH]; intros pps successes ready; simpl.
  - constructor.
  - pose proof (processConsumerMessage_trace pps m (tickerChan env)
                  successes ready) as Hh. simpl in Hh.
    apply handling_alphabet in Hh.
    assert (Forall (λ a, is_tick a = false ∧ a ≠ TickerStop)
              (x_trace (processConsumerMessage pps m (tickerChan env)
                          successes ready))) as Hm.
    { eapply Forall_impl; [exact Hh|]. by intros []. }
    apply Forall_cons_2; [done|]. unfold andThen.
    destruct (x_status (processConsumerMessage pps m (tickerChan env)
                          successes ready)); simpl; try done.
    by apply Forall_app_2.
  - destruct successes as [|[msg more] successes]; simpl; [constructor|].
    apply Forall_cons_2; [done|]. apply Forall_app_2.
    + eapply Forall_impl; [apply onProducerAck_alphabet|]. by intros [].
    + destruct (e_status (onProducerAck pps msg more)); simpl;
        [apply IH|constructor..].
  - rewrite Hauto. constructor.
  - rewrite Hauto. do 2 (apply Forall_cons_2; [done|]).
    apply Forall_app_2; [|by destruct (e_status _)].
    unfold onShutdown.
    assert (Forall (λ a, is_tick a = false ∧ a ≠ TickerStop)
              (map (λ kv : Z * PP, CallOnShutdown kv.1) (map_to_list pps)))
      as Hmap by (by apply Forall_map, Forall_true).
    destruct (producerCloseErr env), (clientCloseErr env); simpl;
      repeat first [ apply Forall_nil_2 | apply Forall_cons_2; [done|]
                   | apply Forall_app_2 ]; done.
Qed.

(** X12: [runLoop] handles the consumer messages in the order in which the
    merged channel delivers them: the messages it receives are a prefix of
    those scheduled before the shutdown signal, each received message is
    passed to [pp.process] at most once and before the next one is
    received, so that at most the last received message is not yet
    processed. *)
Theorem messages_processed_in_arrival_order env pps sched successes ready :
  let l := runLoop env pps sched successes ready in
  received (x_trace l) `prefix_of` scheduled sched
  ∧ processes (x_trace l) `prefix_of` received (x_trace l)
  ∧ (length (received (x_trace l)) ≤ S (length (processes (x_trace l))))%nat.
Proof.
  revert pps successes ready.
  induction sched as [|[m| | |] sched IH]; intros pps successes ready; simpl.
  - split_and!; [apply prefix_nil..|lia].
  - pose proof (processConsumerMessage_trace pps m (tickerChan env)
                  successes ready) as Hh. simpl in Hh.
    destruct (handling_processes _ _ _ _ Hh) as (Hr & Hp & Hret).
    unfold andThen.
    destruct (x_status (processConsumerMessage pps m (tickerChan env)
                          successes ready)) eqn:Hst; simpl.
    + rewrite received_app, processes_app, Hr, Hret by done. simpl.
      destruct (IH (x_procs (processConsumerMessage pps m (tickerChan env)
                               successes ready))
                  (x_successes (processConsumerMessage pps m (tickerChan env)
                                  successes ready))
                  (x_ready (processConsumerMessage pps m (tickerChan env)
                              successes ready))) as (I1 & I2 & I3).
      split_and!; [by apply prefix_cons..|lia].
    + rewrite Hr. split_and!; [by apply prefix_cons, prefix_nil| |].
      * destruct Hp as [-> | ->]; [apply prefix_nil|done].
      * simpl. lia.
    + rewrite Hr. split_and!; [by apply prefix_cons, prefix_nil| |].
      * destruct Hp as [-> | ->]; [apply prefix_nil|done].
      * simpl. lia.
    + rewrite Hr. split_and!; [by apply prefix_cons, prefix_nil| |].
      * destruct Hp as [-> | ->]; [apply prefix_nil|done].
      * simpl. lia.
  - destruct successes as [|[msg more] successes]; simpl;
      [split_and!; [apply prefix_nil..|lia]|].
    rewrite received_app, processes_app.
    rewrite (received_absent (e_trace _)), (processes_absent (e_trace _))
      by lacks. simpl.
    destruct (e_status (onProducerAck pps msg more)); simpl;
      try (split_and!; [apply prefix_nil..|lia]).
    apply IH.
  - destruct (markOffsetsAutomatically env); simpl;
      [|split_and!; [apply prefix_nil..|lia]].
    rewrite received_app, processes_app.
    rewrite (received_absent (map _ _)), (processes_absent (map _ _))
      by (by apply Forall_map, Forall_true).
    apply IH.
  - rewrite !received_app, !processes_app.
    pose proof (onShutdown_alphabet pps (markOffsetsAutomatically env)
                  (producerCloseErr env) (clientCloseErr env)) as Ha.
    rewrite (received_absent (e_trace _)), (processes_absent (e_trace _))
      by lacks.
    destruct (e_status _); simpl; split_and!; apply prefix_nil || lia.
Qed.

End Loop.

(** ** Further properties of construction and of the fan-in *)

Section ConstructionOutcomes.

Context {V MP PP : Type}.
Variable partitionsForContainer : TopicProcessorConfig V → Z → list Z.
Variable newPartitionProcessor : MP → Z → PP.
Variable makeProcessor : nat → MP.

Lemma containerID_check (containerID count : Z) :
  (containerID <? 0) || (containerID >=? count)
  = bool_decide (containerID < 0 ∨ containerID >= count).
Proof.
  case_bool_decide as Hd.
  - by apply containerID_out_of_range.
  - apply containerID_in_range. lia.
Qed.

Lemma makePartitionProcessors_app i l1 l2 (acc : gmap Z PP) :
  makePartitionProcessors newPartitionProcessor makeProcessor i (l1 ++ l2) acc
  = makePartitionProcessors newPartitionProcessor makeProcessor
      (i + length l1) l2
      (makePartitionProcessors newPartitionProcessor makeProcessor i l1 acc).
Proof.
  revert i acc. induction l1 as [|p l1 IH]; intros i acc; simpl.
  - by rewrite Nat.add_0_r.
  - rewrite IH. by rewrite Nat.add_succ_r.
Qed.

Lemma makePartitionProcessors_size i partitions (acc : gmap Z PP) :
  (size (makePartitionProcessors newPartitionProcessor makeProcessor
           i partitions acc) ≤ size acc + length partitions)%nat.
Proof.
  revert i acc. induction partitions as [|p partitions IH]; intros i acc;
    simpl; [lia|].
  etrans; [apply IH|]. rewrite map_size_insert.
  destruct (acc !! int32 p); unfold id; lia.
Qed.

(** X13: what each outcome of [NewTopicProcessor] tells.  It returns only
    when the container id is in range, every input topic has a serde,
    every assigned partition is mapped and the three broker-facing
    constructors succeeded.  The checks run in the order of the code: a
    client error is reported only after the container id and the serdes
    were found valid, a missing partition mapping only after the client was
    created, an offset manager error only after the partitions were found
    mapped, a producer error last. *)
Theorem NewTopicProcessor_outcomes (config : TopicProcessorConfig V)
    (containerID : Z) (env : brokers) :
  let r := NewTopicProcessor partitionsForContainer newPartitionProcessor
             makeProcessor config containerID env in
  let partitions := partitionsForContainer config containerID in
  let inRange := 0 ≤ containerID < ContainerCount config in
  let serdes := ∀ topic, topic ∈ InputTopics config →
                         is_Some (TopicSerdes config !! topic) in
  let mapped := ∀ p, p ∈ partitions →
                     is_Some (PartitionToContainerID config !! p) in
  (∀ tp, r = Ok tp →
     inRange ∧ serdes ∧ mapped
     ∧ newClientErr env = None ∧ newOffsetManagerErr env = None
     ∧ newAsyncProducerErr env = None)
  ∧ (∀ count id, r = LogFatal (FatalContainerID count id) →
       count = ContainerCount config ∧ id = containerID
       ∧ (containerID < 0 ∨ containerID >= ContainerCount config))
  ∧ (∀ topic, r = LogFatal (FatalNoSerde topic) →
       inRange ∧ topic ∈ InputTopics config
       ∧ TopicSerdes config !! topic = None)
  ∧ (∀ err, r = LogFatal (FatalClient err) →
       inRange ∧ serdes ∧ newClientErr env = Some err)
  ∧ (∀ p, r = LogFatal (FatalNoPartitionMapping p) →
       inRange ∧ serdes ∧ newClientErr env = None
       ∧ p ∈ partitions ∧ PartitionToContainerID config !! p = None)
  ∧ (∀ err, r = LogFatal (FatalOffsetManager err) →
       inRange ∧ serdes ∧ mapped ∧ newClientErr env = None
       ∧ newOffsetManagerErr env = Some err)
  ∧ (∀ err, r = LogFatal (FatalProducer err) →
       inRange ∧ serdes ∧ mapped ∧ newClientErr env = None
       ∧ newOffsetManagerErr env = None
       ∧ newAsyncProducerErr env = Some err).
Proof.
  intros r partitions inRange serdes mapped.
  subst r inRange serdes mapped. unfold NewTopicProcessor. fold partitions.
  rewrite containerID_check.
  case_bool_decide as Hrange.
  { split_and!; try (intros; discriminate).
    intros count id [= <- <-]. done. }
  assert (0 ≤ containerID < ContainerCount config) as Hin by lia.
  destruct (missingSerde (TopicSerdes config) (InputTopics config))
    as [topic|] eqn:Hms.
  { apply missingSerde_Some in Hms as [Ht Hnone].
    split_and!; try (intros; discriminate).
    intros topic' [= <-]. done. }
  rewrite missingSerde_None in Hms.
  destruct (newClientErr env) as [cerr|] eqn:Hc.
  { split_and!; try (intros; discriminate).
    intros err [= <-]. done. }
  destruct (missingPartition (PartitionToContainerID config) partitions)
    as [p|] eqn:Hmp.
  { apply missingPartition_Some in Hmp as [Hp Hnone].
    split_and!; try (intros; discriminate).
    intros p' [= <-]. done. }
  rewrite missingPartition_None in Hmp.
  destruct (newOffsetManagerErr env) as [oerr|] eqn:Ho.
  { split_and!; try (intros; discriminate).
    intros err [= <-]. done. }
  destruct (newAsyncProducerErr env) as [perr|] eqn:Hp.
  { split_and!; try (intros; discriminate).
    intros err [= <-]. done. }
  split_and!; try (intros; discriminate).
  intros tp _. done.
Qed.

(** X14: the processors are keyed by [int32(partition)], so assigned
    partitions that agree as [int32] (for instance two that differ by
    2^32) share one entry: the entry holds the processor built for the last
    such partition of the list, [makeProcessor] having been called once for
    every partition before it, and the map never has more entries than
    there are assigned partitions. *)
Theorem last_partition_of_a_key_wins (config : TopicProcessorConfig V)
    (containerID : Z) (env : brokers) tp before p later :
  NewTopicProcessor partitionsForContainer newPartitionProcessor
    makeProcessor config containerID env = Ok tp →
  partitionsForContainer config containerID = before ++ p :: later →
  int32 p ∉ int32 <$> later →
  tp_partitionProcessors tp !! int32 p
  = Some (newPartitionProcessor (makeProcessor (length before)) p)
  ∧ (size (tp_partitionProcessors tp)
     ≤ length (partitionsForContainer config containerID))%nat
  ∧ int32 (p + 2 ^ 32) = int32 p.
Proof.
  unfold NewTopicProcessor. intros Hok Hparts Hlater.
  destruct ((containerID <? 0) || (containerID >=? ContainerCount config));
    [done|].
  destruct (missingSerde _ _); [done|].
  destruct (newClientErr env); [done|].
  destruct (missingPartition _ _); [done|].
  destruct (newOffsetManagerErr env); [done|].
  destruct (newAsyncProducerErr env); [done|].
  injection Hok as <-. simpl. split_and!.
  - rewrite Hparts, makePartitionProcessors_app. simpl.
    rewrite makePartitionProcessors_other by done.
    by rewrite lookup_insert_eq.
  - etrans; [apply makePartitionProcessors_size|].
    by rewrite map_size_empty.
  - unfold int32.
    replace (p + 2 ^ 32 + 2 ^ 31) with (p + 2 ^ 31 + 1 * 2 ^ 32) by lia.
    by rewrite Z.mod_add.
Qed.

End ConstructionOutcomes.

Section FanIn.


Context {PP C : Type}.
Variable channelsOf : PP → list C.

Lemma foldl_append_channels (l : list (Z * PP)) (acc : list C) :
  foldl (λ chans kv, chans ++ channelsOf kv.2) acc l
  = acc ++ concat (map (λ kv, channelsOf kv.2) l).
Proof.
  revert acc. induction l as [|kv l IH]; intros acc; simpl.
  - by rewrite app_nil_r.
  - by rewrite IH, <- app_assoc.
Qed.

(** X16: [consumerMessageChannels] returns the consumer channels of every
    partition processor and nothing else, each as often as its processor
    returns it, and [getConsumerMessagesChan] starts one forwarder per
    returned channel: with no processor, or processors without channels,
    no forwarder is started. *)
Theorem every_channel_gets_a_forwarder (pps : gmap Z PP) :
  (∀ c, c ∈ consumerMessageChannels channelsOf pps ↔
        ∃ k pp, pps !! k = Some pp ∧ c ∈ channelsOf pp)
  ∧ forwarderCount channelsOf pps
    = sum_list (map (λ kv, length (channelsOf kv.2)) (map_to_list pps))
  ∧ ((∀ k pp, pps !! k = Some pp → channelsOf pp = []) →
     forwarderCount channelsOf pps = 0%nat).
Proof.
  unfold forwarderCount, consumerMessageChannels.
  rewrite foldl_append_channels. simpl.
  assert (∀ l : list (Z * PP),
            length (concat (map (λ kv, channelsOf kv.2) l))
            = sum_list (map (λ kv, length (channelsOf kv.2)) l)) as Hlen.
  { induction l as [|kv l IH]; simpl; [done|].
    by rewrite length_app, IH. }
  split_and!.
  - intros c. rewrite list_elem_of_In, in_concat. split.
    + intros (chans & Hin & Hc). apply in_map_iff in Hin as ([k pp] & <- & Hkv).
      exists k, pp. split; [|by apply list_elem_of_In].
      by apply elem_of_map_to_list, list_elem_of_In.
    + intros (k & pp & Hpp & Hc). exists (channelsOf pp). split.
      * apply in_map_iff. exists (k, pp). split; [done|].
        by apply list_elem_of_In, elem_of_map_to_list.
      * by apply list_elem_of_In.
  - apply Hlen.
  - intros Hnone. rewrite Hlen.
    assert (Forall (λ kv : Z * PP, channelsOf kv.2 = []) (map_to_list pps))
      as Hall.
    { apply Forall_forall. intros [k pp] Hin%elem_of_map_to_list.
      by eapply Hnone. }
    induction Hall as [|kv l Hkv Hall IH]; simpl; [done|].
    by rewrite Hkv, IH.
Qed.

End FanIn.

(** ** The further properties on sample runs *)

(** The sample run and a loop that handles one message and shuts down. *)
Lemma acks_routed_once_in_order_witness :
  let e := processConsumerMessage (ops := sampleOps) onePartition msg5 []
             acks5 [true; true] in
  let l := runLoop (ops := sampleOps) closesCleanly onePartition
             oneThenShutdown acks5 [true; true] in
  routes (x_trace e) = omap routeOf (recvs (x_trace e))
  ∧ routes (x_trace l) = omap routeOf (recvs (x_trace l)).
Proof.
  intros e l.
  destruct (acks_routed_once_in_order (ops := sampleOps) onePartition msg5 []
              closesCleanly oneThenShutdown acks5 [true; true])
    as (H1 & _ & H3 & _).
  split.
  - apply H1. intros Hp. vm_compute in Hp. discriminate.
  - apply H3. intros Hp. vm_compute in Hp. discriminate.
Defined.

(** The processor of partition 1 is not touched by a message and
    acknowledgements of partition 0. *)
Lemma other_processors_untouched_witness :
  x_procs (processConsumerMessage (ops := sampleOps) twoPartitions msg5 []
             acks5 [true; true]) !! 1
  = twoPartitions !! 1.
Proof.
  apply (other_processors_untouched (ops := sampleOps) twoPartitions msg5 []
           acks5 [true; true] 1).
  - simpl. lia.
  - simpl. intros Hin.
    repeat (apply elem_of_cons in Hin as [Hin|Hin]; [discriminate|]).
    by apply elem_of_nil in Hin.
Defined.

(** Acknowledgements for the partitions 0 and 1. *)
Lemma acks_of_different_partitions_commute_witness :
  let a1 := onProducerAck (ops := sampleOps) twoPartitions (Some out5) true in
  let a2 := onProducerAck (ops := sampleOps) twoPartitions (Some out1) true in
  e_procs (onProducerAck (ops := sampleOps) (e_procs a1) (Some out1) true)
  = e_procs (onProducerAck (ops := sampleOps) (e_procs a2) (Some out5) true).
Proof.
  intros a1 a2.
  apply (acks_of_different_partitions_commute (ops := sampleOps) twoPartitions
           out5 (mkIncomingMessage "in" 0 5) out1
           (mkIncomingMessage "in" 1 4)).
  - reflexivity.
  - reflexivity.
  - vm_compute. discriminate.
  - exists idle. vm_compute. reflexivity.
  - exists full. vm_compute. reflexivity.
Defined.

(** A processor at capacity in front of a closed success channel. *)
Lemma closed_success_channel_starves_witness :
  let e := processConsumerMessage (ops := sampleOps) atCapacity msg5 []
             closed [true] in
  let c := commitWait (ops := sampleOps) 0 atCapacity closed [true] in
  (x_status e = Blocked ∧ x_procs e = atCapacity ∧ x_successes e = []
   ∧ x_ready e = [true] ∧ processes (x_trace e) = [])
  ∧ (x_status c = Blocked ∧ x_procs c = atCapacity ∧ x_successes c = []
     ∧ Forall (λ a, is_commit a = false) (x_trace c)).
Proof.
  intros e c.
  destruct (closed_success_channel_starves (ops := sampleOps) atCapacity msg5
              [] closed [true] full) as [H1 H2].
  - repeat constructor.
  - vm_compute. reflexivity.
  - split; [apply H1|apply H2]; vm_compute; reflexivity.
Defined.

(** A tick on the container with two partitions. *)
Lemma tick_marks_every_processor_once_witness :
  e_procs (onMarkOffsetsTick (ops := sampleOps) twoPartitions) !! 1
  = Some (partitionProcessor.onMarkOffsetsTick (Ops := sampleOps) full).
Proof.
  destruct (tick_marks_every_processor_once (ops := sampleOps) twoPartitions)
    as (_ & _ & _ & _ & _ & H6).
  apply (H6 1 full). vm_compute. reflexivity.
Defined.

(** The sample run returns: the message was processed and committed. *)
Lemma returned_means_processed_witness :
  let e := processConsumerMessage (ops := sampleOps) onePartition msg5 []
             acks5 [true; true] in
  ∃ t0 outs mc t1,
    x_trace e = t0 ++ CallProcess 0 msg5 outs mc :: t1
    ∧ sends (x_trace e) = outs
    ∧ CallOnProcessCompleted 0 ∈ t1
    ∧ (mc = true →
       ∃ t2, t1 = t2 ++ [CallIsReadyToCommit 0 true; CallMarkOffsetsHook;
                          CallCommit 0])
    ∧ (mc = false → Forall (λ a, commit_step a = false) (x_trace e)).
Proof.
  intros e.
  destruct (returned_means_processed (ops := sampleOps) onePartition msg5 []
              acks5 [true; true]) as [_ H2].
  apply H2. vm_compute. reflexivity.
Defined.


(** The schedule goes on after the shutdown signal; the loop does not. *)
Lemma nothing_follows_shutdown_witness :
  let l := runLoop (ops := sampleOps) closesCleanly onePartition
             oneThenShutdown acks5 [true; true] in
  Forall (λ a, is_shutdown a = false) (take 15 (x_trace l))
  ∧ Forall (λ a, shutdown_action a = true) (drop 16 (x_trace l)).
Proof.
  intros l.
  apply (nothing_follows_shutdown (ops := sampleOps) closesCleanly
           onePartition oneThenShutdown acks5 [true; true]).
  vm_compute. reflexivity.
Defined.

(** A loop without automatic marking that is offered a tick. *)
Lemma no_ticks_without_automatic_marking_witness :
  Forall (λ a, is_tick a = false ∧ a ≠ TickerStop)
    (x_trace (runLoop (ops := sampleOps) manualMarking onePartition
                [SelConsumer msg5; SelShutdown] acks5 [true; true])).
Proof.
  apply (no_ticks_without_automatic_marking (ops := sampleOps) manualMarking).
  reflexivity.
Defined.

(** Construction for container 1, with unreachable brokers, and for
    container 0 with its unmapped partition 2. *)
Lemma NewTopicProcessor_outcomes_witness :
  let new := NewTopicProcessor (MP := unit) sampleAssignment (λ _ p, p)
               (λ _, ()) in
  newOffsetManagerErr reachable = None
  ∧ newClientErr unreachable = Some "no broker available"%string
  ∧ PartitionToContainerID sampleConfig !! 2 = None.
Proof.
  intros new.
  destruct (NewTopicProcessor_outcomes (MP := unit) sampleAssignment
              (λ _ p, p) (λ _, ()) sampleConfig 1 reachable)
    as (H1 & _).
  destruct (NewTopicProcessor_outcomes (MP := unit) sampleAssignment
              (λ _ p, p) (λ _, ()) sampleConfig 1 unreachable)
    as (_ & _ & _ & H4 & _).
  destruct (NewTopicProcessor_outcomes (MP := unit) sampleAssignment
              (λ _ p, p) (λ _, ()) sampleConfig 0 reachable)
    as (_ & _ & _ & _ & H5 & _).
  refine (conj _ (conj _ _)).
  - destruct (new sampleConfig 1 reachable) as [tp|f] eqn:Hr;
      [|vm_compute in Hr; discriminate].
    by destruct (H1 tp Hr) as (_ & _ & _ & _ & Ho & _).
  - destruct (H4 "no broker available"%string) as (_ & _ & Hc);
      [vm_compute; reflexivity|exact Hc].
  - destruct (H5 2) as (_ & _ & _ & _ & Hp);
      [vm_compute; reflexivity|exact Hp].
Defined.

(** The partitions 1 and 1 + 2^32 share the key 1: the processor kept is
    the second one. *)
Lemma last_partition_of_a_key_wins_witness :
  match NewTopicProcessor (MP := nat) wrappedAssignment (λ n p, (n, p)) id
          wrappedConfig 0 reachable with
  | Ok tp =>
    tp_partitionProcessors tp !! int32 (1 + 2 ^ 32)
    = Some (1%nat, 1 + 2 ^ 32)
    ∧ (size (tp_partitionProcessors tp) ≤ 2)%nat
    ∧ int32 (1 + 2 ^ 32 + 2 ^ 32) = int32 (1 + 2 ^ 32)
  | LogFatal _ => False
  end.
Proof.
  destruct (NewTopicProcessor (MP := nat) wrappedAssignment (λ n p, (n, p)) id
              wrappedConfig 0 reachable) as [tp|f] eqn:Hok;
    [|vm_compute in Hok; discriminate].
  apply (last_partition_of_a_key_wins (MP := nat) wrappedAssignment
           (λ n p, (n, p)) id wrappedConfig 0 reachable tp [1] (1 + 2 ^ 32) []
           Hok).
  - reflexivity.
  - apply not_elem_of_nil.
Defined.


(** Processors without consumer channels. *)
Lemma every_channel_gets_a_forwarder_witness :
  forwarderCount (C := nat) (λ _ : PartitionState, []) twoPartitions = 0%nat.
Proof.
  destruct (every_channel_gets_a_forwarder (C := nat)
              (λ _ : PartitionState, []) twoPartitions) as (_ & _ & H3).
  apply H3. reflexivity.
Defined.
